(** * Multimodal dictionary chatbot: safety gate, entry resolvers, formatter

    A shallow embedding of [src/safety.py], [src/word_bot.py] and
    [src/image_bot.py], and the properties of the result-assembly logic.

    Text model.  A Python [str] is a list of characters ([list ascii]).  The
    character-class functions below ([is_space], [to_lower], [is_word],
    [is_linebreak]) are the ASCII fragment of the Unicode-aware Python
    methods: codes above 127 are carried through unchanged and belong to no
    class.  On a text of ASCII characters they are the Python methods; the
    properties that depend on the classes of the characters are stated for
    such texts.

    External collaborators (the WordNet corpus, the file system, the image
    decoder and the classifier) are inputs of the functions that call them. *)

From Stdlib Require Import Ascii QArith.
From stdpp Require Import base list strings gmap sorting.

Abbreviation str := (list ascii) (only parsing).

(** A Python string literal. *)
Definition lit (s : string) : str := String.list_ascii_of_string s.

(** ** Characters *)

Definition code (c : ascii) : nat := nat_of_ascii c.

Definition in_range (lo hi : nat) (c : ascii) : bool :=
  (lo <=? code c) && (code c <=? hi).

(** [str.isspace] on one character: TAB, LF, VT, FF, CR, FS, GS, RS, US, SPACE. *)
Definition is_space (c : ascii) : bool :=
  in_range 9 13 c || in_range 28 32 c.

Definition is_upper (c : ascii) : bool := in_range 65 90 c.
Definition is_lower (c : ascii) : bool := in_range 97 122 c.
Definition is_digit (c : ascii) : bool := in_range 48 57 c.
Definition is_cased (c : ascii) : bool := is_upper c || is_lower c.

Definition to_lower (c : ascii) : ascii :=
  if is_upper c then ascii_of_nat (code c + 32) else c.

Definition to_upper (c : ascii) : ascii :=
  if is_lower c then ascii_of_nat (code c - 32) else c.

(** The regular-expression class [\w]: letters, digits and the underscore. *)
Definition is_word (c : ascii) : bool :=
  is_upper c || is_lower c || is_digit c || (code c =? 95).

(** The line boundaries of [str.splitlines]: LF, VT, FF, CR, FS, GS, RS. *)
Definition is_linebreak (c : ascii) : bool :=
  in_range 10 13 c || in_range 28 30 c.

Definition LF : ascii := ascii_of_nat 10.
Definition VT : ascii := ascii_of_nat 11.
Definition CR : ascii := ascii_of_nat 13.
Definition SP : ascii := ascii_of_nat 32.
Definition nl : str := [LF].

(** ** String methods *)

(** [s.lower()] *)
Definition lower (s : str) : str := map to_lower s.

(** [s.lstrip()], [s.rstrip()], [s.strip()] *)
Fixpoint lstrip (s : str) : str :=
  match s with
  | c :: s' => if is_space c then lstrip s' else s
  | [] => []
  end.

Definition rstrip (s : str) : str := reverse (lstrip (reverse s)).

Definition strip (s : str) : str := rstrip (lstrip s).

(** [s.strip(chars)] *)
Fixpoint lstrip_chars (chars s : str) : str :=
  match s with
  | c :: s' => if bool_decide (c ∈ chars) then lstrip_chars chars s' else s
  | [] => []
  end.

Definition strip_chars (chars s : str) : str :=
  reverse (lstrip_chars chars (reverse (lstrip_chars chars s))).

(** [s.replace(a, b)] for one-character [a] and [b]. *)
Definition replace_char (a b : ascii) (s : str) : str :=
  map (λ c, if bool_decide (c = a) then b else c) s.

(** [s.startswith(p)] and [s.endswith(p)] *)
Fixpoint startswith (s p : str) {struct p} : bool :=
  match p with
  | [] => true
  | a :: p' =>
      match s with
      | c :: s' => bool_decide (a = c) && startswith s' p'
      | [] => false
      end
  end.

Definition endswith (s p : str) : bool := startswith (reverse s) (reverse p).

(** [sep.join(parts)] *)
Fixpoint join (sep : str) (parts : list str) : str :=
  match parts with
  | [] => []
  | [p] => p
  | p :: rest => p ++ sep ++ join sep rest
  end.

(** [s.splitlines()]: [cur] is the line read so far.  CR LF is one
    boundary; a final line break opens no further line. *)
Fixpoint splitlines_from (cur s : str) : list str :=
  match s with
  | [] => if bool_decide (cur = []) then [] else [cur]
  | c :: rest =>
      if bool_decide (c = CR) then
        match rest with
        | d :: rest' =>
            if bool_decide (d = LF) then cur :: splitlines_from [] rest'
            else cur :: splitlines_from [] rest
        | [] => cur :: splitlines_from [] rest
        end
      else if is_linebreak c then cur :: splitlines_from [] rest
      else splitlines_from (cur ++ [c]) rest
  end.

Definition splitlines (s : str) : list str := splitlines_from [] s.

(** [s.title()]: the first cased character of every run of cased characters
    is upper-cased, the others lower-cased. *)
Fixpoint title_from (previous_is_cased : bool) (s : str) : str :=
  match s with
  | [] => []
  | c :: s' =>
      (if previous_is_cased then to_lower c else to_upper c)
        :: title_from (is_cased c) s'
  end.

Definition title (s : str) : str := title_from false s.

(** The order of [sorted] on strings: lexicographic on character codes. *)
Fixpoint str_leb (a b : str) : bool :=
  match a, b with
  | [], _ => true
  | _ :: _, [] => false
  | x :: a', y :: b' =>
      if code x <? code y then true
      else if code y <? code x then false
      else str_leb a' b'
  end.

Definition str_le (a b : str) : Prop := str_leb a b = true.

Global Instance str_le_dec a b : Decision (str_le a b) :=
  decide (str_leb a b = true).

(** * The safety gate ([safety.py]) *)

Module Safety.

Definition BLOCKED_KEYWORDS : list str :=
  map lit
    [ "weapon"; "bomb"; "explosive"; "explicit"; "porn"; "pornography";
      "hate"; "self-harm"; "suicide"; "kill"; "murder"; "drug"; "narcotic";
      "terrorism"; "racist"; "slur" ].

Definition is_word_opt (c : option ascii) : bool :=
  match c with Some x => is_word x | None => false end.

(** [\b] between a character (or the start of the string) and the next one
    (or the end of the string). *)
Definition word_boundary (prev next : option ascii) : bool :=
  xorb (is_word_opt prev) (is_word_opt next).

(** The escaped keyword matches itself, character by character.  The result
    is the last character consumed and the rest of the text. *)
Fixpoint match_literal (kw s : str) (prev : option ascii)
  : option (option ascii * str) :=
  match kw with
  | [] => Some (prev, s)
  | k :: kw' =>
      match s with
      | c :: s' =>
          if bool_decide (k = c) then match_literal kw' s' (Some c) else None
      | [] => None
      end
  end.

(** The pattern [\b kw \b] anchored at the current position. *)
Definition match_here (kw : str) (prev : option ascii) (s : str) : bool :=
  word_boundary prev (head s) &&
  match match_literal kw s prev with
  | Some (last_c, rest) => word_boundary last_c (head rest)
  | None => false
  end.

(** [re.search(rf"\b{re.escape(kw)}\b", s)]: the start positions are tried
    from left to right; [prev] is the character before the current one. *)
Fixpoint re_search_from (kw : str) (prev : option ascii) (s : str) : bool :=
  match_here kw prev s ||
  match s with
  | [] => false
  | c :: s' => re_search_from kw (Some c) s'
  end.

Definition re_search_word (kw s : str) : bool := re_search_from kw None s.

(** The loop over the blocked keywords, with its early return. *)
Fixpoint scan_keywords (keywords : list str) (lowered : str) : bool :=
  match keywords with
  | [] => true
  | keyword :: rest =>
      if re_search_word keyword lowered then false
      else scan_keywords rest lowered
  end.

Definition is_safe_request (text : str) : bool :=
  if bool_decide (text = []) || bool_decide (strip text = []) then true
  else scan_keywords BLOCKED_KEYWORDS (lower text).

Definition get_refusal_message : str :=
  lit "Sorry, I can't help with that request. " ++
  lit "Please enter a valid English word or image path.".

End Safety.

(** * The word resolver ([word_bot.py]) *)

Module WordBot.

(** What the resolver reads of a WordNet synset: [pos()], [definition()],
    [examples()] and the names of [lemmas()], in WordNet's spelling (an
    underscore between the words of a compound). *)
Record Synset := {
  pos : str;
  definition : str;
  examples : list str;
  lemma_names : list str
}.

Record WordEntry := {
  word : str;
  part_of_speech : str;
  pronunciation : str;
  entry_definition : str;
  entry_examples : list str;
  synonyms : list str
}.

Definition _POS_MAP : gmap (list ascii) (list ascii) :=
  list_to_map
    [ (lit "n", lit "noun"); (lit "v", lit "verb"); (lit "a", lit "adjective");
      (lit "r", lit "adverb"); (lit "s", lit "adjective satellite") ].

Definition _pos_readable (wn_pos : str) : str :=
  default (lit "unknown") (_POS_MAP !! wn_pos).

Definition underscore : ascii := ascii_of_nat 95.

(** The set comprehension is a finite set, [sorted] a merge sort of its
    elements, [[:limit]] the first [limit] of them. *)
Definition _collect_synonyms (synset : Synset) (word : str) (limit : nat)
  : list str :=
  let names : gset (list ascii) :=
    list_to_set
      (map (replace_char underscore SP)
         (filter (λ name, lower name ≠ lower word) (lemma_names synset))) in
  take limit (merge_sort str_le (elements names)).

Definition nonempty {A} (l : list A) : bool :=
  match l with [] => false | _ :: _ => true end.

(** [for ss in synsets[1:4]: examples = ss.examples()[:2]; if examples: break] *)
Fixpoint examples_loop (candidates : list Synset) (examples0 : list str)
  : list str :=
  match candidates with
  | [] => examples0
  | ss :: rest =>
      let examples1 := take 2 (examples ss) in
      if nonempty examples1 then examples1 else examples_loop rest examples1
  end.

Definition collect_examples (synsets : list Synset) (primary : Synset)
  : list str :=
  let examples0 := take 2 (examples primary) in
  if nonempty examples0 then examples0
  else examples_loop (take 3 (drop 1 synsets)) examples0.

(** [for ss in synsets[1:4]: synonyms += _collect_synonyms(ss, word)] *)
Fixpoint extend_loop (candidates : list Synset) (word : str)
    (synonyms0 : list str) : list str :=
  match candidates with
  | [] => synonyms0
  | ss :: rest =>
      extend_loop rest word (synonyms0 ++ _collect_synonyms ss word 3)
  end.

(** [for s in synonyms: if s not in seen: seen.add(s); unique.append(s)] *)
Fixpoint dedupe_loop (pending : list str) (seen : gset (list ascii))
    (unique : list str) : list str :=
  match pending with
  | [] => unique
  | s :: rest =>
      if bool_decide (s ∈ seen) then dedupe_loop rest seen unique
      else dedupe_loop rest ({[ s ]} ∪ seen) (unique ++ [s])
  end.

Definition collect_all_synonyms (synsets : list Synset) (primary : Synset)
    (word : str) : list str :=
  let synonyms0 := _collect_synonyms primary word 3 in
  if length synonyms0 <? 2 then
    let synonyms1 := extend_loop (take 3 (drop 1 synsets)) word synonyms0 in
    take 3 (dedupe_loop synonyms1 ∅ [])
  else synonyms0.

Definition not_found_definition : str :=
  lit "No entry found. Check spelling or try a simpler term.".

(** [synsets_of] is [wn.synsets]. *)
Definition define_word_json (synsets_of : str → list Synset) (word0 : str)
  : WordEntry :=
  let word := lower (strip word0) in
  let synsets := synsets_of word in
  match synsets with
  | [] =>
      {| word := word; part_of_speech := lit "unknown";
         pronunciation := lit "N/A";
         entry_definition := not_found_definition;
         entry_examples := []; synonyms := [] |}
  | primary :: _ =>
      {| word := word;
         part_of_speech := _pos_readable (pos primary);
         pronunciation := lit "N/A";
         entry_definition := definition primary;
         entry_examples := collect_examples synsets primary;
         synonyms := collect_all_synonyms synsets primary word |}
  end.

Definition _format_entry (word pos pronunciation definition : str)
    (examples synonyms : list str) : str :=
  let examples_text :=
    if nonempty examples then join nl (map (λ ex, lit "  - " ++ ex) examples)
    else lit "  - (no example available)" in
  let synonyms_text :=
    if nonempty synonyms then join (lit ", ") synonyms else lit "(none)" in
  lit "[word]" ++ nl ++ lit "  " ++ word ++ nl ++
  lit "[part_of_speech]" ++ nl ++ lit "  " ++ pos ++ nl ++
  lit "[pronunciation]" ++ nl ++ lit "  " ++ pronunciation ++ nl ++
  lit "[definition]" ++ nl ++ lit "  " ++ definition ++ nl ++
  lit "[examples]" ++ nl ++ examples_text ++ nl ++
  lit "[synonyms]" ++ nl ++ lit "  " ++ synonyms_text.

Definition _format_not_found (word : str) : str :=
  lit "[word]" ++ nl ++ lit "  " ++ word ++ nl ++
  lit "[part_of_speech]" ++ nl ++ lit "  unknown" ++ nl ++
  lit "[pronunciation]" ++ nl ++ lit "  N/A" ++ nl ++
  lit "[definition]" ++ nl ++
  lit "  No entry found. Check spelling or try a simpler term." ++ nl ++
  lit "[examples]" ++ nl ++ lit "  - (none)" ++ nl ++
  lit "[synonyms]" ++ nl ++ lit "  (none)".

Definition define_word (synsets_of : str → list Synset) (word0 : str) : str :=
  let word := lower (strip word0) in
  if negb (nonempty word) then _format_not_found word
  else
    let synsets := synsets_of word in
    match synsets with
    | [] => _format_not_found word
    | primary :: _ =>
        _format_entry word (_pos_readable (pos primary)) (lit "N/A")
          (definition primary)
          (collect_examples synsets primary)
          (collect_all_synonyms synsets primary word)
    end.

End WordBot.

(** * The image resolver ([image_bot.py]) *)

Module ImageBot.

Definition _LABEL_INFO : gmap (list ascii) (list ascii * list ascii) :=
  list_to_map
    [ (lit "tabby",
       (lit "A tabby cat with distinctive striped or spotted fur markings.",
        lit "A domestic cat pattern; one of the most common coat types in household cats."));
      (lit "tiger cat",
       (lit "A tiger cat (mackerel tabby) with bold striped markings.",
        lit "A domestic cat breed known for tiger-like stripes on its coat."));
      (lit "Siamese cat",
       (lit "A Siamese cat with a light body and dark points on the ears, face, and paws.",
        lit "A domestic cat breed known for its distinct coloration and vocal behavior."));
      (lit "Egyptian cat",
       (lit "An Egyptian Mau cat with a spotted coat and elegant build.",
        lit "One of the oldest domesticated cat breeds, originating from Egypt."));
      (lit "Persian cat",
       (lit "A Persian cat with long, luxurious fur and a flat face.",
        lit "A popular domestic breed known for its gentle temperament and long coat."));
      (lit "golden retriever",
       (lit "A golden retriever with a friendly expression and golden coat.",
        lit "A popular dog breed valued for its intelligence and gentle nature."));
      (lit "Labrador retriever",
       (lit "A Labrador retriever with a short, dense coat.",
        lit "One of the most popular dog breeds, often used as service and guide dogs."));
      (lit "German shepherd",
       (lit "A German shepherd dog with an alert posture.",
        lit "A working dog breed known for its intelligence, loyalty, and versatility."));
      (lit "cup",
       (lit "A cup — a small, open container used for drinking.",
        lit "A common household item for holding beverages, typically with a handle."));
      (lit "coffee mug",
       (lit "A coffee mug — a sturdy cup designed for hot beverages.",
        lit "A household drinkware item, larger than a teacup, often ceramic."));
      (lit "wooden spoon",
       (lit "A wooden spoon used for cooking and stirring.",
        lit "A kitchen utensil carved from wood, commonly used when cooking."));
      (lit "chair",
       (lit "A chair — a piece of furniture for sitting.",
        lit "A common furniture item with a seat, back, and often four legs."));
      (lit "folding chair",
       (lit "A folding chair — a portable, collapsible seating option.",
        lit "A lightweight chair designed to fold flat for easy storage and transport."));
      (lit "rocking chair",
       (lit "A rocking chair with curved legs that allows back-and-forth motion.",
        lit "A type of chair often associated with relaxation and front porches."));
      (lit "desk",
       (lit "A desk — a flat-surfaced table used for reading, writing, or working.",
        lit "A furniture piece commonly found in offices and study areas."));
      (lit "laptop",
       (lit "A laptop computer — a portable personal computer.",
        lit "An electronic device used for computing, communication, and entertainment."));
      (lit "cellular telephone",
       (lit "A mobile phone — a wireless communication device.",
        lit "A widely-used electronic device for calls, messaging, and internet access."));
      (lit "monitor",
       (lit "A computer monitor — an electronic display screen.",
        lit "An output device used to visually display information from a computer.")) ].

Definition generic_description (label : str) : str :=
  lit "An image likely depicting: " ++ label ++ lit ".".

Definition generic_meaning (label : str) : str :=
  lit "'" ++ title label ++
  lit "' is a concept or object recognized by the image " ++
  lit "classifier. Consult a reference for more context.".

(** [_get_label_info]; the module-level table is passed explicitly. *)
Definition _get_label_info (table : gmap (list ascii) (list ascii * list ascii))
    (label : str) : str * str :=
  match table !! label with
  | Some info => info
  | None => (generic_description label, generic_meaning label)
  end.

Record ImageEntry := {
  label : str;
  description : str;
  meaning : str;
  confidence : Q
}.

Definition unknown_object : str := lit "unknown object".

Definition low_confidence_description : str :=
  lit "The classifier could not identify this image with high confidence.".

Definition low_confidence_meaning : str :=
  lit "Try uploading a clearer photo or a different angle.".

(** [_labels[pred_idx] if _labels and 0 <= pred_idx < len(_labels)
     else "unknown object"] *)
Definition pick_label (labels : option (list str)) (pred_idx : Z) : str :=
  match labels with
  | Some names =>
      if WordBot.nonempty names && (0 <=? pred_idx)%Z
         && (pred_idx <? Z.of_nat (length names))%Z
      then default unknown_object (names !! Z.to_nat pred_idx)
      else unknown_object
  | None => unknown_object
  end.

Definition threshold : Q := 15 # 100.

(** The decision taken on the top-1 prediction inside [describe_image]. *)
Definition resolve_prediction (table : gmap (list ascii) (list ascii * list ascii))
    (labels : option (list str)) (conf : Q) (pred_idx : Z) : ImageEntry :=
  let label0 := pick_label labels pred_idx in
  if Qlt_le_dec conf threshold then
    {| label := unknown_object;
       description := low_confidence_description;
       meaning := low_confidence_meaning;
       confidence := conf |}
  else
    let '(description0, meaning0) := _get_label_info table label0 in
    {| label := label0; description := description0; meaning := meaning0;
       confidence := conf |}.

(** What [describe_image] calls outside this repository.  A raised
    exception is its message ([inl]). *)
Record World (Image : Type) := {
  isfile : str → bool;
  splitext : str → str * str;
  open_image : str → str + Image;
  classify : Image → str + (Q * Z);
  labels_of_model : option (list str);
  format_percent : Q → str
}.
Arguments isfile {Image}.
Arguments splitext {Image}.
Arguments open_image {Image}.
Arguments classify {Image}.
Arguments labels_of_model {Image}.
Arguments format_percent {Image}.

Definition valid_extensions : gset (list ascii) :=
  {[ lit ".jpg"; lit ".jpeg"; lit ".png"; lit ".bmp"; lit ".gif"; lit ".webp" ]}.

Definition _format_entry (label description meaning percent : str) : str :=
  lit "[label]" ++ nl ++ lit "  " ++ label ++ nl ++
  lit "[description]" ++ nl ++ lit "  " ++ description ++ nl ++
  lit "[meaning]" ++ nl ++ lit "  " ++ meaning ++ nl ++
  lit "[confidence]" ++ nl ++ lit "  " ++ percent.

Definition _format_error (message : str) : str :=
  lit "[label]" ++ nl ++ lit "  unknown" ++ nl ++
  lit "[description]" ++ nl ++ lit "  " ++ message ++ nl ++
  lit "[meaning]" ++ nl ++ lit "  N/A".

Definition describe_image {Image} (W : World Image) (image_path : str) : str :=
  if negb (isfile W image_path) then
    _format_error (lit "File not found: " ++ image_path)
  else
    let '(_, ext) := splitext W image_path in
    if negb (bool_decide (lower ext ∈ valid_extensions)) then
      _format_error
        (lit "Unsupported image format '" ++ ext ++
         lit "'. Please use JPG or PNG.")
    else
      match open_image W image_path with
      | inl exc => _format_error (lit "Could not read image: " ++ exc)
      | inr img =>
          match classify W img with
          | inl exc => _format_error (lit "Classification error: " ++ exc)
          | inr (conf, pred_idx) =>
              let e := resolve_prediction _LABEL_INFO (labels_of_model W)
                         conf pred_idx in
              _format_entry (label e) (description e) (meaning e)
                (format_percent W (confidence e))
          end
      end.

(** The parsing loop of [describe_image_json]. *)
Definition parse_step (st : gmap (list ascii) (list ascii) * option (list ascii))
    (line : str) : gmap (list ascii) (list ascii) * option (list ascii) :=
  let '(result, current_key) := st in
  if startswith line (lit "[") && endswith line (lit "]") then
    let key := strip_chars (lit "[]") line in
    (<[ key := [] ]> result, Some key)
  else
    match current_key with
    | Some key =>
        if WordBot.nonempty key then
          (<[ key := strip (default [] (result !! key) ++ lit " " ++ strip line) ]>
             result, current_key)
        else st
    | None => st
    end.

Definition parse_entry (text : str) : gmap (list ascii) (list ascii) :=
  fst (fold_left parse_step (splitlines text) (∅, None)).

Definition describe_image_json {Image} (W : World Image) (image_path : str)
  : gmap (list ascii) (list ascii) :=
  parse_entry (describe_image W image_path).

End ImageBot.

(** * The command loop ([main.py]) *)

Module Main.

Import Safety WordBot ImageBot.

Definition HELP_TEXT : str :=
  nl ++
  join nl
    [ lit "╔════════════════════════════════════════════════════╗";
       lit "║   Multimodal Dictionary Chatbot — Commands        ║";
       lit "╠════════════════════════════════════════════════════╣";
       lit "║  define <word>      Look up a word definition     ║";
       lit "║  describe <image>   Describe an image (JPG/PNG)   ║";
       lit "║  help               Show this help message        ║";
       lit "║  exit               Quit the chatbot              ║";
       lit "╚════════════════════════════════════════════════════╝" ] ++
  nl.

(** The first token of [s] and what follows it. *)
Fixpoint take_token (s : str) : str :=
  match s with
  | c :: s' => if is_space c then [] else c :: take_token s'
  | [] => []
  end.

Fixpoint drop_token (s : str) : str :=
  match s with
  | c :: s' => if is_space c then s else drop_token s'
  | [] => []
  end.

(** [s.split(maxsplit=1)]: the first run of whitespace after the first
    token is the only separator; what follows is kept as it is. *)
Definition split_maxsplit1 (s : str) : list str :=
  match lstrip s with
  | [] => []
  | c :: s1 =>
      let rest := lstrip (drop_token (c :: s1)) in
      if nonempty rest then [take_token (c :: s1); rest]
      else [take_token (c :: s1)]
  end.

Definition usage_lines : list str :=
  [ lit "Usage: define <word> | describe <image>";
    lit "Type 'help' for more info." ].

Definition unknown_command (cmd : str) : str :=
  lit "Unknown command: '" ++ cmd ++ lit "'. Type 'help' for options.".

(** One turn of the [while] loop on the line read: whether the loop goes
    on, and the texts given to [print], in order. *)
Definition loop_body {Image} (synsets_of : str → list Synset)
    (W : World Image) (raw : str) : bool * list str :=
  let line := strip raw in
  if negb (nonempty line) then (true, [])
  else if bool_decide (lower line = lit "exit") then (false, [lit "Bye!"])
  else if bool_decide (lower line = lit "help") then (true, [HELP_TEXT])
  else
    match split_maxsplit1 line with
    | cmd0 :: arg :: _ =>
        let cmd := lower cmd0 in
        if negb (is_safe_request arg) then (true, [get_refusal_message])
        else if bool_decide (cmd = lit "define") then
          (true, [define_word synsets_of arg])
        else if bool_decide (cmd = lit "describe") then
          (true, [describe_image W arg])
        else (true, [unknown_command cmd])
    | _ => (true, usage_lines)
    end.

End Main.

(** * The online clients ([ai_clients.py]) *)

Module AiClients.

Inductive UserContent :=
  | UserText (text : str)
  | UserImage (image_url text : str).

(** The request given to [requests.post]. *)
Record Request := {
  url : str;
  header_content_type : str;
  header_api_key : str;
  payload_model : str;
  payload_temperature : Q;
  payload_max_tokens : nat;
  payload_top_p : Q;
  system_content : str;
  user_content : UserContent;
  timeout : nat
}.

(** What the module reads and calls outside this repository.
    [read_prompt] is the text of a file of the prompts directory ([None]:
    the file is not found); [read_base64] the base64 text of a file
    ([None]: an exception); [post] the message content of the response
    ([None]: an exception of the request, of the status check or of the
    access to the content); [json_loads] the decoded content ([None]: an
    exception, or the JSON [null]). *)
Record Env (Json : Type) := {
  getenv : str → option str;
  read_prompt : str → option str;
  requests_importable : bool;
  read_base64 : str → option str;
  post : Request → option str;
  json_loads : str → option Json
}.
Arguments getenv {Json}.
Arguments read_prompt {Json}.
Arguments requests_importable {Json}.
Arguments read_base64 {Json}.
Arguments post {Json}.
Arguments json_loads {Json}.

Section config.
Context {Json : Type} (E : Env Json).

Definition USE_ONLINE_AI : bool :=
  bool_decide
    (lower (default (lit "false") (getenv E (lit "USE_ONLINE_AI"))) = lit "true").

Definition API_KEY : option str := getenv E (lit "AZURE_OPENAI_API_KEY").

Definition API_ENDPOINT : option str := getenv E (lit "AZURE_OPENAI_ENDPOINT").

Definition API_MODEL : str :=
  default (lit "gpt-4o-mini") (getenv E (lit "AZURE_OPENAI_MODEL")).

(** [bool(s)] for an optional string. *)
Definition truthy (s : option str) : bool :=
  match s with
  | Some (_ :: _) => true
  | _ => false
  end.

Definition _load_prompt (filename : str) : str :=
  match read_prompt E filename with
  | Some text => strip text
  | None => []
  end.

Definition is_online_mode : bool :=
  USE_ONLINE_AI && truthy API_KEY && truthy API_ENDPOINT.

Definition chat_url : str :=
  default (lit "None") API_ENDPOINT ++ lit "/openai/deployments/" ++
  API_MODEL ++ lit "/chat/completions" ++ lit "?api-version=2024-02-01".

Definition chat_request (system_prompt : str) (content : UserContent)
    (seconds : nat) : Request :=
  {| url := chat_url;
     header_content_type := lit "application/json";
     header_api_key := default (lit "None") API_KEY;
     payload_model := API_MODEL;
     payload_temperature := 2 # 10;
     payload_max_tokens := 512;
     payload_top_p := 1;
     system_content := system_prompt;
     user_content := content;
     timeout := seconds |}.

(** The result of a call and the requests it sent. *)
Definition send (request : Request) : option Json * list Request :=
  (match post E request with
   | Some content => json_loads E content
   | None => None
   end, [request]).

Definition define_word_online (word : str) : option Json * list Request :=
  if negb is_online_mode then (None, [])
  else
    let system_prompt := _load_prompt (lit "word_prompts.txt") in
    if negb (WordBot.nonempty system_prompt) then (None, [])
    else if negb (requests_importable E) then (None, [])
    else send (chat_request system_prompt (UserText word) 10).

Definition describe_image_online (image_path : str)
  : option Json * list Request :=
  if negb is_online_mode then (None, [])
  else
    let system_prompt := _load_prompt (lit "image_prompts.txt") in
    if negb (WordBot.nonempty system_prompt) then (None, [])
    else if negb (requests_importable E) then (None, [])
    else
      match read_base64 E image_path with
      | None => (None, [])
      | Some b64_image =>
          send (chat_request system_prompt
                  (UserImage (lit "data:image/jpeg;base64," ++ b64_image)
                     (lit "Describe this image."))
                  15)
      end.

End config.

End AiClients.

(** * Specification-side notions

    The notions used to state the properties: they follow the wording of the
    specification, not the code. *)

Module Spec.

Import Safety WordBot ImageBot.

(** ** Safety gate *)

(** A text that is empty or made of whitespace only. *)
Definition blank (text : str) : Prop := Forall (λ c, is_space c = true) text.

(** [kw] occurs in [s] with a [\b] word boundary on each side. *)
Definition occurs_between_boundaries (kw s : str) : Prop :=
  ∃ pre post, s = pre ++ kw ++ post
    ∧ word_boundary (last pre) (head (kw ++ post)) = true
    ∧ word_boundary (last (pre ++ kw)) (head post) = true.

(** [kw] occurs in [s] as a standalone word: no word character touches the
    occurrence on either side. *)
Definition standalone (kw s : str) : Prop :=
  ∃ pre post, s = pre ++ kw ++ post
    ∧ is_word_opt (last pre) = false ∧ is_word_opt (head post) = false.

(** [kw] occurs in [s], and every occurrence is part of a longer word. *)
Definition inside_longer_word_only (kw s : str) : Prop :=
  (∃ pre post, s = pre ++ kw ++ post)
  ∧ ∀ pre post, s = pre ++ kw ++ post →
      is_word_opt (last pre) = true ∨ is_word_opt (head post) = true.

(** The last character of [pre], or [prev] when [pre] is empty. *)
Definition last_or (prev : option ascii) (pre : str) : option ascii :=
  match last pre with Some c => Some c | None => prev end.

(** A keyword that begins and ends with a word character. *)
Definition wordlike (kw : str) : bool :=
  is_word_opt (head kw) && is_word_opt (last kw).

(** ** Synonyms *)

(** The displayed form of a lemma name. *)
Definition term (name : str) : str := replace_char underscore SP name.

(** The synonym terms of a sense, the query word excluded.  A term is the
    query word when the two read the same once the underscores of a compound
    are shown as spaces, letter case aside. *)
Definition sense_terms (word : str) (ss : Synset) : list str :=
  filter (λ shown, lower shown ≠ lower (term word))
    (map term (lemma_names ss)).

(** The terms that the comprehension of [_collect_synonyms] collects: its
    test reads the lemma name as the corpus writes it. *)
Definition collected_terms (word : str) (ss : Synset) : list str :=
  map term (filter (λ name, lower name ≠ lower word) (lemma_names ss)).

(** A text of ASCII characters: on such a text the string methods above are
    those of Python. *)
Definition ascii_text (s : str) : Prop := Forall (λ c, code c < 128) s.

(** What WordNet guarantees of its answers: the words of a compound are
    joined by underscores, so that a query with a space matches no lemma and
    no lemma name holds a space; the lemma names are ASCII texts. *)
Definition spaced_queries_unanswered (synsets_of : str → list Synset) : Prop :=
  ∀ query, SP ∈ query → synsets_of query = [].

Definition underscore_names (senses : list Synset) : Prop :=
  Forall (λ ss, Forall (λ name, ascii_text name ∧ SP ∉ name) (lemma_names ss))
    senses.

(** Alphabetical order without repetition, by insertion. *)
Fixpoint insert_term (x : str) (l : list str) : list str :=
  match l with
  | [] => [x]
  | y :: l' =>
      if bool_decide (x = y) then l
      else if str_leb x y then x :: l
      else y :: insert_term x l'
  end.

Definition sorted_terms (l : list str) : list str := foldr insert_term [] l.

(** De-duplication that keeps the first occurrence of every element. *)
Fixpoint first_seen (l : list str) : list str :=
  match l with
  | [] => []
  | x :: l' => x :: filter (λ y, y ≠ x) (first_seen l')
  end.

(** The synonyms of an entry, built from the terms that the code collects. *)
Definition synonyms_of (word : str) (senses : list Synset) : list str :=
  match senses with
  | [] => []
  | primary :: _ =>
      let from_primary := take 3 (sorted_terms (collected_terms word primary)) in
      if decide (length from_primary < 2) then
        take 3
          (first_seen
             (from_primary ++
              concat (map (λ ss, sorted_terms (collected_terms word ss))
                        (take 3 (drop 1 senses)))))
      else from_primary
  end.

(** ** Formatted blocks *)

Definition no_break (s : str) : Prop := Forall (λ c, is_linebreak c = false) s.

(** A text of ASCII characters on one line. *)
Definition plain (s : str) : Prop := ascii_text s ∧ no_break s.

Definition header (name : str) : str := lit "[" ++ name ++ lit "]".

(** A field: its name and its value lines. *)
Definition section_lines (field : list ascii * list (list ascii)) : list str :=
  header field.1 :: field.2.

Definition block (fields : list (list ascii * list (list ascii))) : str :=
  join nl (concat (map section_lines fields)).

(** The value recovered for a field: its lines, trimmed and joined by one
    space. *)
Definition accumulate_from (acc : str) (lines : list str) : str :=
  fold_left (λ acc line, strip (acc ++ lit " " ++ strip line)) lines acc.

Definition accumulate (lines : list str) : str := accumulate_from [] lines.

Definition is_header (line : str) : bool :=
  startswith line (lit "[") && endswith line (lit "]").

Definition field_name_ok (name : str) : Prop :=
  name ≠ [] ∧ strip_chars (lit "[]") (header name) = name ∧ no_break name.

Definition value_line_ok (line : str) : Prop :=
  line ≠ [] ∧ is_header line = false ∧ no_break line.

Definition field_ok (field : list ascii * list (list ascii)) : Prop :=
  field_name_ok field.1 ∧ Forall value_line_ok field.2.

Definition parsed (fields : list (list ascii * list (list ascii)))
  : gmap (list ascii) (list ascii) :=
  fold_left (λ m field, <[ field.1 := accumulate field.2 ]> m) fields ∅.

Definition example_lines (examples : list str) : list str :=
  if nonempty examples then map (λ ex, lit "  - " ++ ex) examples
  else [lit "  - (no example available)"].

Definition synonyms_text (synonyms : list str) : str :=
  if nonempty synonyms then join (lit ", ") synonyms else lit "(none)".

(** A sense whose texts hold no line break. *)
Definition single_line_sense (ss : Synset) : Prop :=
  no_break (definition ss)
  ∧ Forall no_break (examples ss) ∧ Forall no_break (lemma_names ss).

(** A sense whose texts are ASCII texts on one line. *)
Definition plain_sense (ss : Synset) : Prop :=
  plain (definition ss)
  ∧ Forall plain (examples ss) ∧ Forall plain (lemma_names ss).

(** ** Failures of [describe_image], with the message of each *)

Inductive failure {Image} (W : World Image) (path : str) : str → Prop :=
  | missing_file :
      isfile W path = false →
      failure W path (lit "File not found: " ++ path)
  | unsupported_extension :
      isfile W path = true →
      lower (splitext W path).2 ∉ valid_extensions →
      failure W path
        (lit "Unsupported image format '" ++ (splitext W path).2 ++
         lit "'. Please use JPG or PNG.")
  | unreadable exc :
      isfile W path = true →
      lower (splitext W path).2 ∈ valid_extensions →
      open_image W path = inl exc →
      failure W path (lit "Could not read image: " ++ exc)
  | inference_error img exc :
      isfile W path = true →
      lower (splitext W path).2 ∈ valid_extensions →
      open_image W path = inr img →
      classify W img = inl exc →
      failure W path (lit "Classification error: " ++ exc).

(** The fields that each formatter prints. *)
Definition word_fields (w p pr d : str) (examples synonyms : list str)
  : list (list ascii * list (list ascii)) :=
  [ (lit "word", [lit "  " ++ w]);
    (lit "part_of_speech", [lit "  " ++ p]);
    (lit "pronunciation", [lit "  " ++ pr]);
    (lit "definition", [lit "  " ++ d]);
    (lit "examples", example_lines examples);
    (lit "synonyms", [lit "  " ++ synonyms_text synonyms]) ].

Definition not_found_fields (w : str) : list (list ascii * list (list ascii)) :=
  [ (lit "word", [lit "  " ++ w]);
    (lit "part_of_speech", [lit "  unknown"]);
    (lit "pronunciation", [lit "  N/A"]);
    (lit "definition",
     [lit "  No entry found. Check spelling or try a simpler term."]);
    (lit "examples", [lit "  - (none)"]);
    (lit "synonyms", [lit "  (none)"]) ].

Definition image_fields (label description meaning percent : str)
  : list (list ascii * list (list ascii)) :=
  [ (lit "label", [lit "  " ++ label]);
    (lit "description", [lit "  " ++ description]);
    (lit "meaning", [lit "  " ++ meaning]);
    (lit "confidence", [lit "  " ++ percent]) ].

Definition error_fields (message : str) : list (list ascii * list (list ascii)) :=
  [ (lit "label", [lit "  unknown"]);
    (lit "description", [lit "  " ++ message]);
    (lit "meaning", [lit "  N/A"]) ].

(** ** Requests of the online clients *)

(** A request as the configured client sends it: to the chat URL of the
    endpoint and of the model, with the key of the environment, the given
    timeout and a system prompt that is not empty. *)
Definition configured_request {Json} (E : AiClients.Env Json) (seconds : nat)
    (q : AiClients.Request) : Prop :=
  ∃ key endpoint,
    AiClients.API_KEY E = Some key ∧ key ≠ []
    ∧ AiClients.API_ENDPOINT E = Some endpoint ∧ endpoint ≠ []
    ∧ AiClients.header_api_key q = key
    ∧ AiClients.url q =
        endpoint ++ lit "/openai/deployments/" ++ AiClients.API_MODEL E ++
        lit "/chat/completions?api-version=2024-02-01"
    ∧ AiClients.payload_model q = AiClients.API_MODEL E
    ∧ AiClients.timeout q = seconds
    ∧ AiClients.system_content q ≠ [].

End Spec.

(** * Sample inputs *)

Module Samples.

Import WordBot ImageBot.

Definition serendipity : Synset :=
  {| pos := lit "n"; definition := lit "a fortunate discovery";
     examples := []; lemma_names := [lit "serendipity"; lit "luck"] |}.

Definition ice_cream : Synset :=
  {| pos := lit "n";
     definition := lit "frozen dessert containing cream and sugar and flavoring";
     examples := []; lemma_names := [lit "ice_cream"; lit "icecream"] |}.

Definition dog_animal : Synset :=
  {| pos := lit "n"; definition := lit "a member of the genus Canis";
     examples := [];
     lemma_names := [lit "dog"; lit "domestic_dog"] |}.

Definition dog_frump : Synset :=
  {| pos := lit "n";
     definition := lit "a dull unattractive unpleasant girl or woman";
     examples := [lit "she got a reputation as a frump"; lit "she's a real dog";
                  lit "a third sentence"];
     lemma_names := [lit "frump"; lit "dog"] |}.

Definition dog_cad : Synset :=
  {| pos := lit "n"; definition := lit "someone who is morally reprehensible";
     examples := [lit "you dirty dog"];
     lemma_names := [lit "cad"; lit "bounder"; lit "blackguard"; lit "dog";
                     lit "hound"; lit "heel"] |}.

Definition wordnet (w : str) : list Synset :=
  if bool_decide (w = lit "dog") then [dog_animal; dog_frump; dog_cad]
  else if bool_decide (w = lit "serendipity") then [serendipity]
  else if bool_decide (w = lit "ice cream") then [ice_cream]
  else [].

(** A corpus in the manner of WordNet: a compound is found under its
    underscore spelling only. *)
Definition corpus (w : str) : list Synset :=
  if bool_decide (w = lit "dog") then [dog_animal; dog_frump; dog_cad]
  else if bool_decide (w = lit "ice_cream") then [ice_cream]
  else [].

(** A machine on which every path is a readable photograph that the
    classifier labels with index 0 at the given confidence. *)
Definition photo_booth (conf : Q) (percent : str) : World unit :=
  {| isfile := λ _, true;
     splitext := λ path, (path, lit ".JPG");
     open_image := λ _, inr tt;
     classify := λ _, inr (conf, 0%Z);
     labels_of_model := Some [lit "tabby"; lit "tiger cat"];
     format_percent := λ _, percent |}.

(** A machine without image files. *)
Definition empty_disk : World unit :=
  {| isfile := λ _, false;
     splitext := λ path, (path, []);
     open_image := λ _, inl (lit "cannot identify image file");
     classify := λ _, inl (lit "model failure");
     labels_of_model := None;
     format_percent := λ _, lit "0.00%" |}.

(** An environment with the online mode configured. *)
Definition azure : AiClients.Env unit :=
  {| AiClients.getenv := λ name,
       if bool_decide (name = lit "USE_ONLINE_AI") then Some (lit "True")
       else if bool_decide (name = lit "AZURE_OPENAI_API_KEY") then
         Some (lit "secret")
       else if bool_decide (name = lit "AZURE_OPENAI_ENDPOINT") then
         Some (lit "https://example.openai.azure.com")
       else None;
     AiClients.read_prompt := λ _, Some (lit " You are a dictionary. " ++ nl);
     AiClients.requests_importable := true;
     AiClients.read_base64 := λ _, Some (lit "aGVsbG8=");
     AiClients.post := λ _, Some (lit "{}");
     AiClients.json_loads := λ _, Some tt |}.

(** The same without an API key. *)
Definition azure_without_key : AiClients.Env unit :=
  {| AiClients.getenv := λ name,
       if bool_decide (name = lit "USE_ONLINE_AI") then Some (lit "true")
       else if bool_decide (name = lit "AZURE_OPENAI_ENDPOINT") then
         Some (lit "https://example.openai.azure.com")
       else None;
     AiClients.read_prompt := λ _, Some (lit "You are a dictionary.");
     AiClients.requests_importable := true;
     AiClients.read_base64 := λ _, Some (lit "aGVsbG8=");
     AiClients.post := λ _, Some (lit "{}");
     AiClients.json_loads := λ _, Some tt |}.

(** The configured environment on a machine whose images cannot be read. *)
Definition azure_unreadable : AiClients.Env unit :=
  {| AiClients.getenv := AiClients.getenv azure;
     AiClients.read_prompt := AiClients.read_prompt azure;
     AiClients.requests_importable := true;
     AiClients.read_base64 := λ _, None;
     AiClients.post := AiClients.post azure;
     AiClients.json_loads := AiClients.json_loads azure |}.

End Samples.

(** * Properties *)

(** ** Characters and string methods *)

Ltac each_char c := destruct c as [[] [] [] [] [] [] [] []].

Lemma to_lower_is_space c : is_space (to_lower c) = is_space c.
Proof. each_char c; reflexivity. Qed.

Lemma to_lower_is_word c : is_word (to_lower c) = is_word c.
Proof. each_char c; reflexivity. Qed.

Lemma to_lower_SP c : to_lower c = SP → c = SP.
Proof. each_char c; vm_compute; congruence. Qed.

Lemma is_word_not_space c : is_word c = true → is_space c = false.
Proof. each_char c; vm_compute; congruence. Qed.

Lemma code_inj x y : code x = code y → x = y.
Proof.
  unfold code. intros H.
  rewrite <- (ascii_nat_embedding x), <- (ascii_nat_embedding y).
  by rewrite H.
Qed.

Lemma lstrip_blank s : Spec.blank s → lstrip s = [].
Proof.
  induction 1 as [|c s Hc _ IH]; simpl; [done|]. by rewrite Hc.
Qed.

Lemma strip_blank s : Spec.blank s → strip s = [].
Proof. intros H. unfold strip. by rewrite lstrip_blank. Qed.

Lemma lstrip_nil_blank s : lstrip s = [] → Spec.blank s.
Proof.
  induction s as [|c s IH]; simpl; [constructor|].
  destruct (is_space c) eqn:Hc; [|done].
  intros H. constructor; [done | by apply IH].
Qed.

Lemma lstrip_idem s : lstrip (lstrip s) = lstrip s.
Proof.
  induction s as [|c s IH]; simpl; [done|].
  destruct (is_space c) eqn:Hc; [done|]. simpl. by rewrite Hc.
Qed.

Lemma blank_reverse s : Spec.blank (reverse s) ↔ Spec.blank s.
Proof.
  unfold Spec.blank. rewrite !Forall_forall.
  split; intros H c Hc; apply H; by rewrite ?elem_of_reverse in *.
Qed.

Lemma strip_nil_blank s : strip s = [] → Spec.blank s.
Proof.
  unfold strip, rstrip. intros H.
  apply (f_equal reverse) in H. rewrite reverse_involutive in H.
  apply lstrip_nil_blank in H. apply blank_reverse in H.
  apply lstrip_blank in H.
  rewrite ?reverse_involutive, lstrip_idem in H. by apply lstrip_nil_blank.
Qed.

(** ** The safety gate on blank input *)

Section blank_input.
Import Safety.

Lemma blank_passes (text : str) :
  Spec.blank text → is_safe_request text = true.
Proof.
  intros Hb. unfold is_safe_request.
  rewrite (strip_blank text Hb).
  rewrite (bool_decide_eq_true_2 ([] = [])) by done.
  by rewrite orb_true_r.
Qed.

(** Conversely, a text the gate rejects holds a visible character. *)
Lemma inspected_text_not_blank (text : str) :
  is_safe_request text = false → ¬ Spec.blank text.
Proof.
  intros H Hb. by rewrite blank_passes in H.
Qed.

(** C3.  A text that is empty or holds whitespace only passes the gate. *)
Theorem C3_blank_text_is_safe (text : str) :
  Spec.blank text → is_safe_request text = true.
Proof.
  intros Hb. destruct text as [|c text].
  - reflexivity.
  - by apply blank_passes.
Qed.

Lemma C3_blank_text_is_safe_witness :
  Spec.blank (lit "   ") ∧ is_safe_request (lit "   ") = true.
Proof.
  assert (Hb : Spec.blank (lit "   ")) by (repeat constructor).
  split; [exact Hb | exact (C3_blank_text_is_safe (lit "   ") Hb)].
Defined.

End blank_input.

(** ** The word resolver: not-found entry, caps, examples *)

Section word_entry.
Import WordBot.
Variable synsets_of : list ascii → list Synset.

(** C4.  With no sense for the normalised word, the entry is the not-found
    entry; the text form is [_format_not_found]. *)
Theorem C4_not_found_entry (word0 : str) :
  synsets_of (lower (strip word0)) = [] →
  define_word_json synsets_of word0 =
    {| word := lower (strip word0);
       part_of_speech := lit "unknown";
       pronunciation := lit "N/A";
       entry_definition :=
         lit "No entry found. Check spelling or try a simpler term.";
       entry_examples := [];
       synonyms := [] |}
  ∧ define_word synsets_of word0 = _format_not_found (lower (strip word0)).
Proof.
  intros H. unfold define_word_json, define_word. rewrite H.
  split; [done|]. by destruct (negb _).
Qed.

Lemma length_collect_synonyms ss w n : length (_collect_synonyms ss w n) ≤ n.
Proof. unfold _collect_synonyms. rewrite length_take. lia. Qed.

Lemma length_examples_loop cands ex0 :
  length ex0 ≤ 2 → length (examples_loop cands ex0) ≤ 2.
Proof.
  revert ex0. induction cands as [|ss cands IH]; intros ex0 H; simpl; [done|].
  assert (length (take 2 (examples ss)) ≤ 2) by (rewrite length_take; lia).
  destruct (nonempty _); auto.
Qed.

Lemma length_collect_examples synsets primary :
  length (collect_examples synsets primary) ≤ 2.
Proof.
  unfold collect_examples.
  assert (length (take 2 (examples primary)) ≤ 2) by (rewrite length_take; lia).
  destruct (nonempty _); [done|]. by apply length_examples_loop.
Qed.

Lemma length_collect_all_synonyms synsets primary w :
  length (collect_all_synonyms synsets primary w) ≤ 3.
Proof.
  unfold collect_all_synonyms.
  destruct (_ <? 2).
  - rewrite length_take. lia.
  - apply length_collect_synonyms.
Qed.

(** C5.  An entry has at most three synonyms and at most two examples; the
    text form prints the fields of that entry, or the not-found block. *)
Theorem C5_entry_caps (word0 : str) :
  let e := define_word_json synsets_of word0 in
  length (synonyms e) ≤ 3 ∧ length (entry_examples e) ≤ 2
  ∧ (define_word synsets_of word0 = _format_not_found (word e)
     ∨ define_word synsets_of word0 =
         _format_entry (word e) (part_of_speech e) (pronunciation e)
           (entry_definition e) (entry_examples e) (synonyms e)).
Proof.
  unfold define_word_json, define_word.
  destruct (synsets_of (lower (strip word0))) as [|primary rest] eqn:Hs; simpl.
  - repeat split; try lia. left. by destruct (negb _).
  - split; [apply length_collect_all_synonyms|].
    split; [apply length_collect_examples|].
    destruct (negb _); [by left | by right].
Qed.

Lemma examples_loop_skip skipped ss later ex0 :
  Forall (λ s, examples s = []) skipped → examples ss ≠ [] →
  examples_loop (skipped ++ ss :: later) ex0 = take 2 (examples ss).
Proof.
  intros Hsk Hss. revert ex0.
  induction Hsk as [|s skipped Hs _ IH]; intros ex0; simpl.
  - destruct (examples ss) as [|x [|y l]]; done.
  - rewrite Hs. simpl. apply IH.
Qed.

Lemma examples_loop_none cands :
  Forall (λ s, examples s = []) cands → examples_loop cands [] = [].
Proof.
  induction 1 as [|s cands Hs _ IH]; simpl; [done|]. by rewrite Hs.
Qed.

Lemma examples_loop_one_sense cands :
  examples_loop cands [] = []
  ∨ ∃ ss, ss ∈ cands ∧ examples_loop cands [] = take 2 (examples ss).
Proof.
  induction cands as [|s cands IH]; simpl; [by left|].
  destruct (nonempty (take 2 (examples s))) eqn:Hn.
  - right. exists s. split; [left | done].
  - destruct (take 2 (examples s)); [|done].
    destruct IH as [IH|(ss & Hin & IH)]; [by left|].
    right. exists ss. split; [by right | done].
Qed.

(** C6.  The examples come from one sense: the primary one if it has any,
    else the first of the next three senses that has any. *)
Theorem C6_examples_from_one_sense (word0 : str) primary rest :
  synsets_of (lower (strip word0)) = primary :: rest →
  let e := entry_examples (define_word_json synsets_of word0) in
  (examples primary ≠ [] → e = take 2 (examples primary))
  ∧ (examples primary = [] →
     ∀ skipped ss later,
       take 3 rest = skipped ++ ss :: later →
       Forall (λ s, examples s = []) skipped → examples ss ≠ [] →
       e = take 2 (examples ss))
  ∧ (examples primary = [] →
     Forall (λ s, examples s = []) (take 3 rest) → e = [])
  ∧ (∃ ss, ss ∈ take 4 (primary :: rest) ∧ e = take 2 (examples ss)).
Proof.
  intros Hs. unfold define_word_json. rewrite Hs. cbn [entry_examples].
  unfold collect_examples. change (drop 1 (primary :: rest)) with rest.
  repeat split.
  - intros Hp. by destruct (examples primary) as [|x [|y l]].
  - intros Hp skipped ss later Hrest Hsk Hss. rewrite Hp, Hrest.
    by apply examples_loop_skip.
  - intros Hp Hnone. rewrite Hp. by apply examples_loop_none.
  - destruct (nonempty (take 2 (examples primary))) eqn:Hn.
    + exists primary. split; [left | done].
    + destruct (take 2 (examples primary)) eqn:Hp; [|done].
      destruct (examples_loop_one_sense (take 3 rest)) as [H|(ss & Hin & H)].
      * exists primary. split; [left | by rewrite Hp].
      * exists ss. split; [|done].
        change (take 4 (primary :: rest)) with (primary :: take 3 rest).
        by right.
Qed.
End word_entry.

(** ** The order of [sorted] *)

Lemma str_leb_refl a : str_leb a a = true.
Proof.
  induction a as [|x a IH]; simpl; [done|]. by rewrite Nat.ltb_irrefl.
Qed.

Lemma str_leb_cons x a y b :
  str_leb (x :: a) (y :: b) = true
  ↔ code x < code y ∨ (code x = code y ∧ str_leb a b = true).
Proof.
  simpl. destruct (code x <? code y) eqn:Hxy.
  - apply Nat.ltb_lt in Hxy. naive_solver.
  - apply Nat.ltb_ge in Hxy. destruct (code y <? code x) eqn:Hyx.
    + apply Nat.ltb_lt in Hyx. split; [done|]. lia.
    + apply Nat.ltb_ge in Hyx. split; [right; split; [lia | done]|].
      intros [?|[_ ?]]; [lia | done].
Qed.

Lemma str_leb_total a b : str_leb a b = true ∨ str_leb b a = true.
Proof.
  revert b. induction a as [|x a IH]; intros [|y b]; try (simpl; auto; fail).
  rewrite !str_leb_cons. destruct (IH b); [|]; 
    destruct (Nat.lt_total (code x) (code y)) as [?|[?|?]]; auto.
Qed.

Lemma str_leb_trans a b c :
  str_leb a b = true → str_leb b c = true → str_leb a c = true.
Proof.
  revert b c. induction a as [|x a IH]; intros [|y b] [|z c]; try done.
  rewrite !str_leb_cons. intros [?|[? ?]] [?|[? ?]]; try (left; lia).
  right. split; [lia | by eapply IH].
Qed.

Lemma str_leb_antisym a b :
  str_leb a b = true → str_leb b a = true → a = b.
Proof.
  revert b. induction a as [|x a IH]; intros [|y b]; try done.
  rewrite !str_leb_cons. intros [?|[? ?]] [?|[? ?]]; try lia.
  f_equal; [by apply code_inj | by apply IH].
Qed.

Global Instance str_le_trans : Transitive str_le.
Proof. intros a b c. apply str_leb_trans. Qed.

Global Instance str_le_total : Total str_le.
Proof. intros a b. apply str_leb_total. Qed.

Global Instance str_le_antisym : AntiSymm (=) str_le.
Proof. intros a b. apply str_leb_antisym. Qed.

(** ** Sorted terms without repetition *)

Section sorted_terms.
Import Spec.

Lemma elem_of_insert_term x y l : y ∈ insert_term x l ↔ y = x ∨ y ∈ l.
Proof.
  induction l as [|z l IH]; simpl.
  - rewrite list_elem_of_singleton, elem_of_nil. naive_solver.
  - case_bool_decide as Hxz.
    + subst. rewrite elem_of_cons. naive_solver.
    + destruct (str_leb x z); rewrite !elem_of_cons; [done|].
      rewrite IH. naive_solver.
Qed.

Lemma insert_term_sorted x l :
  StronglySorted str_le l → StronglySorted str_le (insert_term x l).
Proof.
  induction 1 as [|z l Hl IH Hz]; simpl.
  - repeat constructor.
  - case_bool_decide as Hxz; [by constructor|].
    destruct (str_leb x z) eqn:Hle.
    + constructor; [by constructor|]. constructor; [done|].
      eapply Forall_impl; [exact Hz|]. intros w Hw. by transitivity z.
    + constructor; [done|]. apply Forall_forall. intros w Hw.
      apply elem_of_insert_term in Hw as [->|Hw].
      * destruct (str_leb_total x z) as [H|H]; [congruence | done].
      * rewrite Forall_forall in Hz. by apply Hz.
Qed.

Lemma insert_term_NoDup x l :
  StronglySorted str_le l → NoDup l → NoDup (insert_term x l).
Proof.
  induction 1 as [|z l Hl IH Hz]; simpl; intros Hnd.
  - apply NoDup_singleton.
  - apply NoDup_cons in Hnd as [Hzl Hnd].
    case_bool_decide as Hxz; [by apply NoDup_cons|].
    destruct (str_leb x z) eqn:Hle.
    + apply NoDup_cons. split; [|by apply NoDup_cons].
      rewrite elem_of_cons. intros [?|Hin]; [done|].
      rewrite Forall_forall in Hz. apply Hxz, str_leb_antisym; [done|].
      by apply Hz.
    + apply NoDup_cons. split; [|by apply IH].
      rewrite elem_of_insert_term. intros [?|?]; [congruence | done].
Qed.

Lemma elem_of_sorted_terms x l : x ∈ sorted_terms l ↔ x ∈ l.
Proof.
  induction l as [|y l IH]; simpl; [done|].
  rewrite elem_of_insert_term, IH, elem_of_cons. done.
Qed.

Lemma sorted_terms_sorted l : StronglySorted str_le (sorted_terms l).
Proof.
  induction l as [|y l IH]; simpl; [constructor|]. by apply insert_term_sorted.
Qed.

Lemma sorted_terms_NoDup l : NoDup (sorted_terms l).
Proof.
  induction l as [|y l IH]; simpl; [constructor|].
  apply insert_term_NoDup; [apply sorted_terms_sorted | done].
Qed.

(** [sorted] of the set of the elements of [l] is [sorted_terms l]. *)
Lemma sorted_set_is_sorted_terms (l : list (list ascii)) :
  merge_sort str_le (elements (list_to_set l : gset (list ascii)))
  = sorted_terms l.
Proof.
  apply (StronglySorted_unique str_le).
  - apply StronglySorted_merge_sort; apply _.
  - apply sorted_terms_sorted.
  - rewrite merge_sort_Permutation.
    apply NoDup_Permutation.
    + apply NoDup_elements.
    + apply sorted_terms_NoDup.
    + intros x. rewrite elem_of_elements, elem_of_list_to_set.
      by rewrite elem_of_sorted_terms.
Qed.

End sorted_terms.

(** ** The synonym loops against the specification *)

Section synonyms_refinement.
Import WordBot Spec.

Lemma collect_synonyms_spec ss w n :
  _collect_synonyms ss w n = take n (sorted_terms (collected_terms w ss)).
Proof.
  unfold _collect_synonyms, collected_terms, term.
  by rewrite sorted_set_is_sorted_terms.
Qed.

Lemma extend_loop_spec cands w acc :
  extend_loop cands w acc
  = acc ++ concat (map (λ ss, _collect_synonyms ss w 3) cands).
Proof.
  revert acc. induction cands as [|ss cands IH]; intros acc; simpl.
  - by rewrite app_nil_r.
  - by rewrite IH, <- app_assoc.
Qed.

Lemma first_seen_filter (P : list ascii → Prop) `{∀ x, Decision (P x)} l :
  first_seen (filter P l) = filter P (first_seen l).
Proof.
  induction l as [|x l IH]; [done|].
  rewrite filter_cons. simpl. rewrite filter_cons.
  destruct (decide (P x)) as [Hx|Hx]; simpl.
  - f_equal. rewrite IH, !list_filter_filter.
    apply list_filter_iff. naive_solver.
  - rewrite IH, list_filter_filter. apply list_filter_iff.
    intros y. split; [|naive_solver]. intros Hy. split; [done|congruence].
Qed.

Lemma dedupe_loop_spec (l : list (list ascii)) (seen : gset (list ascii)) unique :
  dedupe_loop l seen unique
  = unique ++ first_seen (filter (λ y, y ∉ seen) l).
Proof.
  revert seen unique. induction l as [|x l IH]; intros seen unique; simpl.
  - by rewrite app_nil_r.
  - rewrite filter_cons. case_bool_decide as Hx.
    + rewrite decide_False by (by intros ?). apply IH.
    + rewrite decide_True by done. rewrite IH, <- app_assoc. simpl.
      do 2 f_equal. rewrite <- first_seen_filter, list_filter_filter.
      f_equal. apply list_filter_iff. intros y.
      rewrite not_elem_of_union, not_elem_of_singleton. naive_solver.
Qed.

Lemma dedupe_loop_first_seen l : dedupe_loop l ∅ [] = first_seen l.
Proof.
  rewrite dedupe_loop_spec. simpl. f_equal.
  induction l as [|x l IH]; [done|].
  rewrite filter_cons, decide_True by apply not_elem_of_empty. by f_equal.
Qed.

Lemma elem_of_first_seen x l : x ∈ first_seen l ↔ x ∈ l.
Proof.
  induction l as [|y l IH]; simpl; [done|].
  rewrite !elem_of_cons, list_elem_of_filter, IH.
  destruct (decide (x = y)); naive_solver.
Qed.

Lemma first_seen_NoDup l : NoDup (first_seen l).
Proof.
  induction l as [|y l IH]; simpl; [constructor|].
  apply NoDup_cons. split.
  - rewrite list_elem_of_filter. naive_solver.
  - by apply NoDup_filter.
Qed.

Lemma first_seen_app l1 l2 :
  first_seen (l1 ++ l2)
  = first_seen l1 ++ filter (λ y, y ∉ l1) (first_seen l2).
Proof.
  induction l1 as [|x l1 IH]; simpl.
  - induction (first_seen l2) as [|y l IH]; [done|].
    rewrite filter_cons_True by apply not_elem_of_nil. by f_equal.
  - f_equal. rewrite IH, filter_app. f_equal.
    rewrite list_filter_filter. apply list_filter_iff. intros y.
    rewrite not_elem_of_cons. naive_solver.
Qed.

(** Once three different terms were seen, what follows cannot reach the
    first three places. *)
Lemma take_first_seen_full (picked l1 l2 : list (list ascii)) n :
  NoDup picked → length picked = n → picked ⊆ l1 →
  take n (first_seen (l1 ++ l2)) = take n (first_seen l1).
Proof.
  intros Hnd Hlen Hsub. rewrite first_seen_app.
  apply take_app_le.
  rewrite <- Hlen. apply submseteq_length, NoDup_submseteq; [done|].
  intros x Hx. apply elem_of_first_seen. by apply Hsub.
Qed.

(** Taking at most three terms of each further sense, as the code does, or
    all of them gives the same first three terms. *)
Lemma per_sense_cap_invisible (terms_of : Synset → list (list ascii)) cands acc :
  (∀ ss, NoDup (terms_of ss)) →
  take 3 (first_seen (acc ++ concat (map (λ ss, take 3 (terms_of ss)) cands)))
  = take 3 (first_seen (acc ++ concat (map terms_of cands))).
Proof.
  intros Hnd. revert acc.
  induction cands as [|ss cands IH]; intros acc; [reflexivity|].
  cbn [map concat].
  destruct (decide (length (terms_of ss) ≤ 3)) as [Hle|Hgt].
  - rewrite (take_ge (terms_of ss)) by done. rewrite !app_assoc. apply IH.
  - assert (Hpick : NoDup (take 3 (terms_of ss))
                    ∧ length (take 3 (terms_of ss)) = 3).
    { split; [|rewrite length_take; lia].
      specialize (Hnd ss). rewrite <- (take_drop 3 (terms_of ss)) in Hnd.
      by apply NoDup_app in Hnd as [? _]. }
    destruct Hpick as [Hpnd Hplen].
    assert (Hsub : take 3 (terms_of ss) ⊆ acc ++ take 3 (terms_of ss)).
    { intros x Hx. apply elem_of_app. by right. }
    transitivity (take 3 (first_seen (acc ++ take 3 (terms_of ss)))).
    + rewrite (app_assoc acc).
      by apply (take_first_seen_full (take 3 (terms_of ss))).
    + symmetry.
      rewrite <- (take_drop 3 (terms_of ss)) at 1.
      rewrite <- (app_assoc (take 3 (terms_of ss))), (app_assoc acc).
      by apply (take_first_seen_full (take 3 (terms_of ss))).
Qed.

Lemma collect_all_synonyms_spec primary rest w :
  collect_all_synonyms (primary :: rest) primary w
  = synonyms_of w (primary :: rest).
Proof.
  unfold collect_all_synonyms, synonyms_of.
  rewrite collect_synonyms_spec.
  set (p := take 3 (sorted_terms (collected_terms w primary))).
  destruct (Nat.ltb_spec (length p) 2) as [Hlt|Hge].
  - rewrite decide_True by done.
    rewrite dedupe_loop_first_seen, extend_loop_spec.
    rewrite (map_ext _ (λ ss, take 3 (sorted_terms (collected_terms w ss))))
      by (intros ss; apply collect_synonyms_spec).
    apply (per_sense_cap_invisible (λ ss, sorted_terms (collected_terms w ss))).
    intros ss. apply sorted_terms_NoDup.
  - rewrite decide_False by lia. done.
Qed.

End synonyms_refinement.

(** ** Synonyms of an entry *)

Section synonym_terms.
Import WordBot Spec.

(** What "sorted alphabetically" and "de-duplicated in first-seen order"
    mean for the lists of the specification. *)
Lemma sorted_terms_meaning l :
  StronglySorted str_le (sorted_terms l) ∧ NoDup (sorted_terms l)
  ∧ ∀ x, x ∈ sorted_terms l ↔ x ∈ l.
Proof.
  split; [apply sorted_terms_sorted|].
  split; [apply sorted_terms_NoDup|]. intros x. apply elem_of_sorted_terms.
Qed.

Lemma first_seen_meaning l :
  NoDup (first_seen l) ∧ first_seen l `sublist_of` l
  ∧ ∀ x, x ∈ first_seen l ↔ x ∈ l.
Proof.
  split; [apply first_seen_NoDup|].
  split; [|intros x; apply elem_of_first_seen].
  induction l as [|y l IH]; simpl; [done|].
  apply sublist_skip. etrans; [apply sublist_filter|done].
Qed.

Lemma elem_of_collected_terms x w ss :
  x ∈ collected_terms w ss
  ↔ ∃ name, name ∈ lemma_names ss ∧ lower name ≠ lower w ∧ x = term name.
Proof.
  unfold collected_terms. rewrite list_elem_of_In, in_map_iff. split.
  - intros (name & <- & Hin). apply list_elem_of_In, list_elem_of_filter in Hin.
    naive_solver.
  - intros (name & Hin & Hne & ->). exists name. split; [done|].
    apply list_elem_of_In, list_elem_of_filter. done.
Qed.

Lemma elem_of_synonyms_of x w senses :
  x ∈ synonyms_of w senses → ∃ ss, ss ∈ take 4 senses ∧ x ∈ collected_terms w ss.
Proof.
  destruct senses as [|primary rest]; [by intros ?%elem_of_nil|].
  change (take 4 (primary :: rest)) with (primary :: take 3 rest).
  cbn [synonyms_of drop].
  assert (Hp : x ∈ take 3 (sorted_terms (collected_terms w primary)) →
               ∃ ss, ss ∈ primary :: take 3 rest ∧ x ∈ collected_terms w ss).
  { intros Hx. apply subseteq_take in Hx. rewrite elem_of_sorted_terms in Hx.
    exists primary. split; [left | exact Hx]. }
  case_decide; [|done].
  intros Hx. apply subseteq_take in Hx.
  rewrite elem_of_first_seen, elem_of_app in Hx.
  destruct Hx as [Hx|Hx]; [by apply Hp|].
  rewrite list_elem_of_In, in_concat in Hx. destruct Hx as (l & Hl & Hx).
  apply in_map_iff in Hl as (ss & <- & Hss).
  rewrite <- list_elem_of_In, elem_of_sorted_terms in Hx.
  rewrite <- list_elem_of_In in Hss. exists ss. split; [by right | done].
Qed.

Lemma term_without_space name w :
  SP ∉ w → lower (term name) = lower w → term name = name.
Proof.
  revert w. induction name as [|c name IH]; intros [|d w] Hsp; try done.
  cbn [term replace_char lower map]. intros [= Hc Hrest].
  apply not_elem_of_cons in Hsp as [Hd Hw].
  case_bool_decide as Hcu.
  - exfalso. apply Hd. symmetry. by apply to_lower_SP.
  - f_equal. by apply (IH w).
Qed.

Lemma to_lower_underscore c : to_lower c = underscore → c = underscore.
Proof. each_char c; vm_compute; congruence. Qed.

(** Two letters, neither of them a space, are shown as the same letter
    exactly when they are the same letter, letter case aside. *)
Lemma shown_same_letter c d :
  SP ≠ c → SP ≠ d →
  to_lower (if bool_decide (c = underscore) then SP else c)
  = to_lower (if bool_decide (d = underscore) then SP else d)
  ↔ to_lower c = to_lower d.
Proof.
  intros Hc Hd.
  case_bool_decide as Hcu; case_bool_decide as Hdu; subst; try done.
  - split; intros Heq; exfalso.
    + apply Hd. symmetry. apply to_lower_SP. symmetry. exact Heq.
    + apply Hdu, to_lower_underscore. symmetry. exact Heq.
  - split; intros Heq; exfalso.
    + apply Hc. symmetry. apply to_lower_SP. exact Heq.
    + apply Hcu, to_lower_underscore. exact Heq.
Qed.

Lemma term_same_word name w :
  SP ∉ name → SP ∉ w →
  lower (term name) = lower (term w) ↔ lower name = lower w.
Proof.
  revert w. induction name as [|c name IH]; intros [|d w] Hn Hw; try done.
  apply not_elem_of_cons in Hn as [Hc Hn].
  apply not_elem_of_cons in Hw as [Hd Hw].
  cbn [term replace_char lower map].
  specialize (IH w Hn Hw). unfold term, replace_char, lower in IH.
  pose proof (shown_same_letter c d Hc Hd) as Hcd.
  split; intros [= H1 H2]; f_equal; tauto.
Qed.

Lemma term_without_underscore w : underscore ∉ w → term w = w.
Proof.
  unfold term, replace_char. induction w as [|c w IH]; [done|].
  intros [Hc Hw]%not_elem_of_cons. cbn [map].
  rewrite bool_decide_eq_false_2 by done. f_equal. by apply IH.
Qed.

(** Under the guarantees of the corpus, the test of the code on the lemma
    name selects the terms of the specification. *)
Lemma collected_terms_as_specified w ss :
  SP ∉ w → Forall (λ name, SP ∉ name) (lemma_names ss) →
  collected_terms w ss = sense_terms w ss.
Proof.
  unfold collected_terms, sense_terms. intros Hw.
  induction 1 as [|name names Hname _ IH]; [done|].
  cbn [map]. rewrite !filter_cons.
  pose proof (term_same_word name w Hname Hw) as Hsame.
  destruct (decide (lower name ≠ lower w)) as [Hne|He].
  - rewrite decide_True by tauto. cbn [map]. by f_equal.
  - rewrite decide_False; [done|]. intros Hne. apply He. tauto.
Qed.

End synonym_terms.

Section entry_synonyms.
Import WordBot Spec.
Variable synsets_of : list ascii → list Synset.

Lemma synonyms_are_spec_synonyms (word0 : str) :
  synonyms (define_word_json synsets_of word0)
  = synonyms_of (lower (strip word0)) (synsets_of (lower (strip word0))).
Proof.
  unfold define_word_json.
  destruct (synsets_of (lower (strip word0))) as [|primary rest]; [done|].
  apply collect_all_synonyms_spec.
Qed.

(** A query word without a space is in no synonym list, whatever the case
    of the letters. *)
Lemma synonyms_exclude_spaceless_query (word0 : str) :
  let e := define_word_json synsets_of word0 in
  SP ∉ word e → ∀ s, s ∈ synonyms e → lower s ≠ lower (word e).
Proof.
  intros e Hsp s Hs Heq. subst e.
  rewrite synonyms_are_spec_synonyms in Hs.
  assert (Hw : word (define_word_json synsets_of word0) = lower (strip word0)).
  { unfold define_word_json. by destruct (synsets_of _). }
  rewrite Hw in *.
  apply elem_of_synonyms_of in Hs as (ss & _ & Hs).
  apply elem_of_collected_terms in Hs as (name & _ & Hne & ->).
  apply Hne. by rewrite <- (term_without_space name _ Hsp Heq).
Qed.

(** C1.  Whatever the query, no synonym of the entry is the query word,
    letter case aside.  The corpus is one that, as WordNet does, has no sense
    for a query with a space in it. *)
Theorem C1_synonyms_exclude_query (word0 : str) :
  spaced_queries_unanswered synsets_of →
  let e := define_word_json synsets_of word0 in
  ∀ s, s ∈ synonyms e → lower s ≠ lower (word e).
Proof.
  intros Hcorpus e s Hs.
  assert (Hw : word e = lower (strip word0)).
  { subst e. unfold define_word_json. by destruct (synsets_of _). }
  destruct (decide (SP ∈ word e)) as [Hsp|Hsp].
  - exfalso. rewrite Hw in Hsp. subst e. unfold define_word_json in Hs.
    rewrite (Hcorpus _ Hsp) in Hs. by apply elem_of_nil in Hs.
  - by apply synonyms_exclude_spaceless_query.
Qed.

(** C7.  The synonyms of an entry: the primary sense's terms, the query word
    excluded, in alphabetical order, three at most; with fewer than two of
    them, the terms of the next three senses are appended in the order of the
    senses, the list is de-duplicated in first-seen order and cut to three.
    The query word is in no such list; for a query without underscore, the
    terms excluded are those that match it exactly, letter case aside.  The
    query is an ASCII text, and the corpus is one that, as WordNet does, joins
    the words of a compound by underscores: it has no sense for a query with
    a space, and its lemma names are ASCII texts without space. *)
Theorem C7_synonyms_as_specified (word0 : str) primary rest :
  ascii_text word0 →
  spaced_queries_unanswered synsets_of →
  synsets_of (lower (strip word0)) = primary :: rest →
  underscore_names (take 4 (primary :: rest)) →
  let w := lower (strip word0) in
  let from_primary := take 3 (sorted_terms (sense_terms w primary)) in
  synonyms (define_word_json synsets_of word0)
  = (if decide (length from_primary < 2) then
       take 3
         (first_seen
            (from_primary ++
             concat (map (λ ss, sorted_terms (sense_terms w ss))
                       (take 3 rest))))
     else from_primary)
  ∧ (∀ s, s ∈ synonyms (define_word_json synsets_of word0) →
       lower s ≠ lower w)
  ∧ (underscore ∉ w →
     ∀ ss, sense_terms w ss
           = filter (λ shown, lower shown ≠ lower w)
               (map term (lemma_names ss))).
Proof.
  intros _ Hcorpus Hs Hascii. cbv zeta.
  assert (Hsp : SP ∉ lower (strip word0)).
  { intros Hsp. apply Hcorpus in Hsp. congruence. }
  assert (Hnames : Forall (λ ss, Forall (λ name, SP ∉ name) (lemma_names ss))
                     (take 4 (primary :: rest))).
  { eapply Forall_impl; [exact Hascii|]. intros ss Hss. cbv beta in Hss.
    eapply Forall_impl; [exact Hss|]. by intros name [_ ?]. }
  change (take 4 (primary :: rest)) with (primary :: take 3 rest) in Hnames.
  apply Forall_cons in Hnames as [Hprimary Hrest].
  split; [|split].
  - unfold define_word_json. rewrite Hs. cbn [synonyms].
    rewrite collect_all_synonyms_spec. cbn [synonyms_of drop].
    rewrite drop_0.
    rewrite (collected_terms_as_specified _ primary Hsp Hprimary).
    assert (Hmap :
      map (λ ss, sorted_terms (collected_terms (lower (strip word0)) ss))
        (take 3 rest)
      = map (λ ss, sorted_terms (sense_terms (lower (strip word0)) ss))
          (take 3 rest)).
    { apply map_ext_Forall. eapply Forall_impl; [exact Hrest|].
      intros ss Hss. cbv beta. by rewrite collected_terms_as_specified. }
    by rewrite Hmap.
  - intros s Hin.
    pose proof (synonyms_exclude_spaceless_query word0) as Hex.
    cbv zeta in Hex.
    assert (Hw : word (define_word_json synsets_of word0)
                 = lower (strip word0)).
    { unfold define_word_json. by destruct (synsets_of _). }
    rewrite Hw in Hex. by apply Hex.
  - intros Hu ss. unfold sense_terms. by rewrite term_without_underscore.
Qed.

End entry_synonyms.

Lemma corpus_spaced_queries_unanswered :
  Spec.spaced_queries_unanswered Samples.corpus.
Proof.
  intros query Hsp. unfold Samples.corpus.
  repeat case_bool_decide; subst; try done; exfalso;
    apply list_elem_of_In in Hsp; cbn in Hsp; intuition discriminate.
Qed.

Lemma corpus_dog_underscore_names :
  Spec.underscore_names
    (take 4 (Samples.dog_animal :: [Samples.dog_frump; Samples.dog_cad])).
Proof.
  unfold Spec.underscore_names. apply (bool_decide_unpack _). by vm_compute.
Qed.

Lemma C1_synonyms_exclude_query_witness :
  Spec.spaced_queries_unanswered Samples.corpus
  ∧ ∀ s, s ∈ WordBot.synonyms
             (WordBot.define_word_json Samples.corpus (lit "Ice_Cream")) →
         lower s ≠ lit "ice_cream".
Proof.
  split; [exact corpus_spaced_queries_unanswered|].
  exact (C1_synonyms_exclude_query Samples.corpus (lit "Ice_Cream")
           corpus_spaced_queries_unanswered).
Defined.

Lemma C7_synonyms_as_specified_witness :
  Spec.ascii_text (lit " Dog ")
  ∧ Spec.spaced_queries_unanswered Samples.corpus
  ∧ Samples.corpus (lower (strip (lit " Dog "))) = Samples.dog_animal ::
      [Samples.dog_frump; Samples.dog_cad]
  ∧ Spec.underscore_names
      (take 4 (Samples.dog_animal :: [Samples.dog_frump; Samples.dog_cad]))
  ∧ WordBot.synonyms (WordBot.define_word_json Samples.corpus (lit " Dog "))
    = [lit "domestic dog"; lit "frump"; lit "blackguard"].
Proof.
  assert (Hs : Samples.corpus (lower (strip (lit " Dog "))) =
               Samples.dog_animal :: [Samples.dog_frump; Samples.dog_cad])
    by reflexivity.
  assert (Ha : Spec.ascii_text (lit " Dog "))
    by (apply (bool_decide_unpack _); by vm_compute).
  split; [exact Ha|].
  split; [exact corpus_spaced_queries_unanswered|].
  split; [exact Hs|]. split; [exact corpus_dog_underscore_names|].
  exact (eq_trans
           (proj1 (C7_synonyms_as_specified Samples.corpus (lit " Dog ") _ _
                     Ha corpus_spaced_queries_unanswered Hs
                     corpus_dog_underscore_names))
           eq_refl).
Defined.

(** The guarantee of the corpus is needed: the test reads the lemma name
    before its underscores are replaced, so that a corpus with a sense for
    the query "ice cream" would see its lemma [ice_cream] listed as the
    synonym "ice cream". *)
Lemma answered_spaced_query_is_listed :
  let e := WordBot.define_word_json Samples.wordnet (lit "Ice Cream") in
  WordBot.word e = lit "ice cream"
  ∧ WordBot.synonyms e = [lit "ice cream"; lit "icecream"]
  ∧ WordBot.word e ∈ WordBot.synonyms e
  ∧ WordBot._collect_synonyms Samples.ice_cream (lit "ice cream") 3
    = [lit "ice cream"; lit "icecream"].
Proof.
  cbv zeta. split; [by vm_compute|]. split; [by vm_compute|].
  split; [vm_compute; left | by vm_compute].
Qed.

Lemma C4_not_found_entry_witness :
  Samples.wordnet (lower (strip (lit "  Qwzx "))) = []
  ∧ WordBot.part_of_speech
      (WordBot.define_word_json Samples.wordnet (lit "  Qwzx "))
    = lit "unknown"
  ∧ WordBot.define_word Samples.wordnet (lit "  Qwzx ")
    = WordBot._format_not_found (lit "qwzx").
Proof.
  assert (Hs : Samples.wordnet (lower (strip (lit "  Qwzx "))) = [])
    by reflexivity.
  destruct (C4_not_found_entry Samples.wordnet (lit "  Qwzx ") Hs) as [He Ht].
  split; [exact Hs|]. split; [by rewrite He | exact Ht].
Defined.

Lemma C6_examples_from_one_sense_witness :
  Samples.wordnet (lower (strip (lit "dog")))
  = Samples.dog_animal :: [Samples.dog_frump; Samples.dog_cad]
  ∧ WordBot.entry_examples (WordBot.define_word_json Samples.wordnet (lit "dog"))
    = [lit "she got a reputation as a frump"; lit "she's a real dog"].
Proof.
  assert (Hs : Samples.wordnet (lower (strip (lit "dog")))
               = Samples.dog_animal :: [Samples.dog_frump; Samples.dog_cad])
    by reflexivity.
  split; [exact Hs|].
  destruct (C6_examples_from_one_sense Samples.wordnet (lit "dog") _ _ Hs)
    as (_ & Hnext & _).
  apply (Hnext eq_refl [] Samples.dog_frump [Samples.dog_cad] eq_refl).
  - constructor.
  - discriminate.
Defined.

(** ** The whole-word search of the safety gate *)

Section whole_word_search.
Import Safety Spec.

Lemma last_or_cons prev c pre : last_or prev (c :: pre) = last_or (Some c) pre.
Proof.
  unfold last_or. destruct pre as [|d pre]; [done|].
  rewrite last_cons_cons. by destruct (last (d :: pre)) eqn:E;
    [|apply last_None in E].
Qed.

Lemma match_literal_spec kw s prev last_c rest :
  match_literal kw s prev = Some (last_c, rest)
  ↔ s = kw ++ rest ∧ last_c = last_or prev kw.
Proof.
  revert s prev. induction kw as [|k kw IH]; intros s prev; simpl.
  - unfold last_or. simpl. naive_solver.
  - destruct s as [|c s]; [naive_solver|].
    rewrite last_or_cons. case_bool_decide as Hkc.
    + subst c. rewrite IH. naive_solver.
    + naive_solver.
Qed.

Lemma match_here_spec kw prev s :
  match_here kw prev s = true
  ↔ ∃ post, s = kw ++ post
      ∧ word_boundary prev (head s) = true
      ∧ word_boundary (last_or prev kw) (head post) = true.
Proof.
  unfold match_here. rewrite andb_true_iff. split.
  - intros [Hb Hm].
    destruct (match_literal kw s prev) as [[last_c rest]|] eqn:E; [|done].
    apply match_literal_spec in E as [-> ->]. eauto.
  - intros (post & -> & Hb & He). split; [done|].
    assert (E : match_literal kw (kw ++ post) prev
                = Some (last_or prev kw, post))
      by (by apply match_literal_spec).
    by rewrite E.
Qed.

Lemma last_or_app prev pre kw :
  last_or prev (pre ++ kw) = last_or (last_or prev pre) kw.
Proof.
  revert prev. induction pre as [|c pre IH]; intros prev; [done|].
  rewrite <- app_comm_cons, !last_or_cons. apply IH.
Qed.

Lemma re_search_from_spec kw prev s :
  re_search_from kw prev s = true
  ↔ ∃ pre post, s = pre ++ kw ++ post
      ∧ word_boundary (last_or prev pre) (head (kw ++ post)) = true
      ∧ word_boundary (last_or prev (pre ++ kw)) (head post) = true.
Proof.
  revert prev. induction s as [|c s IH]; intros prev.
  - simpl. rewrite orb_false_r, match_here_spec. split.
    + intros (post & Hs & Hb & He). exists [], post. by rewrite <- Hs.
    + intros (pre & post & Hs & Hb & He).
      symmetry in Hs. apply app_eq_nil in Hs as [-> Hs].
      exists post. rewrite Hs in Hb |- *. done.
  - cbn [re_search_from]. rewrite orb_true_iff, match_here_spec, IH. split.
    + intros [(post & Hs & Hb & He)|(pre & post & Hs & Hb & He)].
      * exists [], post. by rewrite <- Hs.
      * exists (c :: pre), post. cbn [app]. rewrite !last_or_cons.
        by rewrite Hs.
    + intros (pre & post & Hs & Hb & He). destruct pre as [|d pre].
      * left. exists post. simpl in Hs. by rewrite Hs.
      * right. cbn [app] in Hs, He. injection Hs as -> Hs.
        rewrite last_or_cons in Hb, He. eauto.
Qed.

(** The search succeeds exactly on an occurrence between word boundaries. *)
Lemma re_search_word_spec kw s :
  re_search_word kw s = true ↔ occurs_between_boundaries kw s.
Proof.
  unfold re_search_word, occurs_between_boundaries.
  rewrite re_search_from_spec. unfold last_or.
  split; intros (pre & post & Hs & Hb & He); exists pre, post;
    (split; [done|]); revert Hb He;
    destruct (last pre), (last (pre ++ kw)); done.
Qed.

(** For a keyword that begins and ends with a word character, the two
    boundaries say that no word character touches the occurrence. *)
Lemma wordlike_boundaries kw s :
  wordlike kw = true → occurs_between_boundaries kw s ↔ standalone kw s.
Proof.
  unfold wordlike, occurs_between_boundaries, standalone, word_boundary.
  intros [Hh Hl]%andb_true_iff.
  assert (Hhead : ∀ post, is_word_opt (head (kw ++ post)) = true).
  { intros post. by destruct kw. }
  assert (Hlast : ∀ pre, is_word_opt (last (pre ++ kw)) = true).
  { intros pre. destruct kw as [|k kw]; [done|].
    by rewrite last_app_cons. }
  split; intros (pre & post & Hs & Hb & He); exists pre, post;
    (split; [done|]); rewrite Hhead in *; rewrite Hlast in *;
    destruct (is_word_opt (last pre)), (is_word_opt (head post)); done.
Qed.

Lemma blocked_keywords_wordlike :
  Forall (λ kw, wordlike kw = true) BLOCKED_KEYWORDS.
Proof. repeat constructor. Qed.

Lemma blocked_keywords_lowercase :
  Forall (λ kw, lower kw = kw) BLOCKED_KEYWORDS.
Proof. repeat constructor. Qed.

Lemma blocked_keyword_search kw s :
  kw ∈ BLOCKED_KEYWORDS → re_search_word kw s = true ↔ standalone kw s.
Proof.
  intros Hin. rewrite re_search_word_spec. apply wordlike_boundaries.
  by apply (proj1 (Forall_forall _ _) blocked_keywords_wordlike).
Qed.

(** The loop stops at the first keyword found. *)
Lemma scan_keywords_false keywords lowered :
  scan_keywords keywords lowered = false
  ↔ ∃ skipped hit later, keywords = skipped ++ hit :: later
      ∧ Forall (λ kw, re_search_word kw lowered = false) skipped
      ∧ re_search_word hit lowered = true.
Proof.
  induction keywords as [|kw keywords IH]; simpl.
  - split; [done|]. intros (skipped & hit & later & H & _).
    by destruct skipped.
  - destruct (re_search_word kw lowered) eqn:E.
    + split; [|done]. intros _. exists [], kw, keywords. by repeat split.
    + rewrite IH. split.
      * intros (skipped & hit & later & -> & Hsk & Hhit).
        exists (kw :: skipped), hit, later. repeat split; [|done].
        by constructor.
      * intros (skipped & hit & later & Hk & Hsk & Hhit).
        destruct skipped as [|k skipped]; simplify_eq/=; [congruence|].
        apply Forall_cons in Hsk as [_ Hsk]. by exists skipped, hit, later.
Qed.

Lemma scan_keywords_true keywords lowered :
  scan_keywords keywords lowered = true
  ↔ Forall (λ kw, re_search_word kw lowered = false) keywords.
Proof.
  induction keywords as [|kw keywords IH]; simpl.
  - split; [constructor | done].
  - destruct (re_search_word kw lowered) eqn:E.
    + split; [done|]. intros [? _]%Forall_cons. congruence.
    + rewrite IH, Forall_cons. naive_solver.
Qed.

Lemma standalone_not_blank kw s :
  wordlike kw = true → standalone kw s → ¬ blank s.
Proof.
  intros [Hh _]%andb_true_iff (pre & post & -> & _) Hb.
  destruct kw as [|k kw]; [done|]. simpl in Hh.
  apply Forall_app in Hb as [_ Hb]. apply Forall_app in Hb as [Hb _].
  apply Forall_cons in Hb as [Hk _].
  by rewrite (is_word_not_space k Hh) in Hk.
Qed.

Lemma blank_lower s : blank (lower s) ↔ blank s.
Proof.
  unfold blank, lower. rewrite Forall_map.
  apply Forall_iff. intros c. simpl. by rewrite to_lower_is_space.
Qed.

Lemma is_safe_request_inspects text :
  ¬ blank text →
  is_safe_request text = scan_keywords BLOCKED_KEYWORDS (lower text).
Proof.
  intros Hnb. unfold is_safe_request.
  rewrite !bool_decide_eq_false_2; [done| |].
  - intros H. by apply Hnb, strip_nil_blank.
  - intros ->. apply Hnb. constructor.
Qed.

Lemma last_map {A B} (f : A → B) l : last (map f l) = f <$> last l.
Proof.
  induction l as [|x [|y l] IH]; [done..|].
  change (map f (x :: y :: l)) with (f x :: map f (y :: l)).
  by rewrite !last_cons_cons.
Qed.

Lemma standalone_lower kw text :
  lower kw = kw → standalone kw text → standalone kw (lower text).
Proof.
  intros Hkw (pre & post & -> & Hb & He).
  exists (lower pre), (lower post). unfold lower in *.
  rewrite !map_app, Hkw. split; [done|].
  rewrite last_map. destruct post as [|c post], (last pre) as [d|];
    simpl in *; by rewrite ?to_lower_is_word.
Qed.

End whole_word_search.

(** ** The safety gate on blocked terms *)

Section gate.
Import Safety Spec.

Lemma blocked_not_standalone kw lowered :
  kw ∈ BLOCKED_KEYWORDS →
  re_search_word kw lowered = false ↔ ¬ standalone kw lowered.
Proof.
  intros Hin. rewrite <- (blocked_keyword_search kw lowered Hin).
  by destruct (re_search_word kw lowered).
Qed.

Lemma inside_longer_word_not_standalone kw s :
  inside_longer_word_only kw s → ¬ standalone kw s.
Proof.
  intros [_ Hall] (pre & post & Hs & Hb & He).
  destruct (Hall pre post Hs); congruence.
Qed.

(** C2 (amended).  For a blocked term [T] and a text of ASCII characters:
    the gate rejects a text in which [T] stands as a word of its own, in any
    letter case; it accepts a text in which no blocked term stands as a word
    of its own, so an occurrence of [T] inside a longer word is no match for
    [T]; and a rejection is due to the first blocked term, in the order of
    the list, that stands as a word of its own. *)
Theorem C2_gate_whole_word (T text : str) :
  T ∈ BLOCKED_KEYWORDS →
  ascii_text text →
  (standalone T (lower text) → is_safe_request text = false)
  ∧ (standalone T text → is_safe_request text = false)
  ∧ (inside_longer_word_only T (lower text) →
     (∀ T', T' ∈ BLOCKED_KEYWORDS → T' ≠ T → ¬ standalone T' (lower text)) →
     is_safe_request text = true)
  ∧ ((∀ T', T' ∈ BLOCKED_KEYWORDS → ¬ standalone T' (lower text)) →
     is_safe_request text = true)
  ∧ (is_safe_request text = false →
     ∃ skipped hit later,
       BLOCKED_KEYWORDS = skipped ++ hit :: later
       ∧ Forall (λ kw, ¬ standalone kw (lower text)) skipped
       ∧ standalone hit (lower text)).
Proof.
  intros HT _.
  assert (Hw : wordlike T = true)
    by (by apply (proj1 (Forall_forall _ _) blocked_keywords_wordlike)).
  assert (Hlow : lower T = T)
    by (by apply (proj1 (Forall_forall _ _) blocked_keywords_lowercase)).
  assert (Hreject : standalone T (lower text) → is_safe_request text = false).
  { intros Hst.
    assert (Hnb : ¬ blank text).
    { intros Hb. by apply (standalone_not_blank T (lower text) Hw Hst),
        blank_lower. }
    rewrite (is_safe_request_inspects text Hnb).
    destruct (scan_keywords BLOCKED_KEYWORDS (lower text)) eqn:E; [|done].
    apply scan_keywords_true in E.
    rewrite Forall_forall in E. specialize (E T HT).
    apply (blocked_not_standalone T _ HT) in E. by destruct E. }
  assert (Haccept :
    (∀ T', T' ∈ BLOCKED_KEYWORDS → ¬ standalone T' (lower text)) →
    is_safe_request text = true).
  { intros Hnone. unfold is_safe_request.
    destruct (_ || _); [done|].
    apply scan_keywords_true, Forall_forall. intros kw Hkw.
    apply (blocked_not_standalone kw _ Hkw). by apply Hnone. }
  split; [exact Hreject|].
  split; [intros Hst; by apply Hreject, standalone_lower|].
  split.
  { intros Hin Hother. apply Haccept. intros T' HT'.
    destruct (decide (T' = T)) as [->|Hne].
    - by apply inside_longer_word_not_standalone.
    - by apply Hother. }
  split; [exact Haccept|].
  intros Hfalse.
  assert (Hnb : ¬ blank text) by (by apply inspected_text_not_blank).
  rewrite (is_safe_request_inspects text Hnb) in Hfalse.
  apply scan_keywords_false in Hfalse
    as (skipped & hit & later & Hlist & Hsk & Hhit).
  exists skipped, hit, later. split; [done|].
  assert (Hsub : ∀ kw, kw ∈ skipped ∨ kw = hit → kw ∈ BLOCKED_KEYWORDS).
  { intros kw Hkw. rewrite Hlist, elem_of_app, elem_of_cons.
    destruct Hkw; auto. }
  split.
  - rewrite Forall_forall in Hsk |- *. intros kw Hkw.
    apply blocked_not_standalone; auto.
  - apply blocked_keyword_search; auto.
Qed.

(** C2, as first stated, fails: "porn" occurs in "pornography" only as part of
    that longer word, and the text is rejected, for the longer word is a
    blocked term too. *)
Lemma C2_longer_word_is_blocked :
  lit "porn" ∈ BLOCKED_KEYWORDS
  ∧ inside_longer_word_only (lit "porn") (lit "pornography")
  ∧ is_safe_request (lit "pornography") = false.
Proof.
  split; [repeat constructor|].
  split; [|by vm_compute].
  split.
  - by exists [], (lit "ography").
  - intros pre post H. unfold lit in H. simpl in H.
    destruct pre as [|c pre]; simpl in H.
    + injection H as <-. by right.
    + exfalso. injection H as <- H.
      do 10 (destruct pre as [|? pre]; simpl in H;
             [ discriminate H | injection H as <- H ]).
      by destruct pre.
Qed.

End gate.

Lemma C2_gate_whole_word_witness :
  lit "kill" ∈ Safety.BLOCKED_KEYWORDS
  ∧ Spec.ascii_text (lit "how to KILL time")
  ∧ Spec.standalone (lit "kill") (lower (lit "how to KILL time"))
  ∧ Safety.is_safe_request (lit "how to KILL time") = false
  ∧ Safety.is_safe_request (lit "a killer whale") = true.
Proof.
  assert (Hin : lit "kill" ∈ Safety.BLOCKED_KEYWORDS) by (repeat constructor).
  assert (Ha : Spec.ascii_text (lit "how to KILL time")).
  { apply (bool_decide_unpack _). by vm_compute. }
  assert (Hb : Spec.ascii_text (lit "a killer whale")).
  { apply (bool_decide_unpack _). by vm_compute. }
  assert (Hst : Spec.standalone (lit "kill") (lower (lit "how to KILL time"))).
  { exists (lit "how to "), (lit " time"). by vm_compute. }
  destruct (C2_gate_whole_word (lit "kill") (lit "how to KILL time") Hin Ha)
    as (Hreject & _).
  destruct (C2_gate_whole_word (lit "kill") (lit "a killer whale") Hin Hb)
    as (_ & _ & _ & Haccept & _).
  split; [exact Hin|]. split; [exact Ha|]. split; [exact Hst|].
  split; [exact (Hreject Hst)|].
  apply Haccept. intros T' HT'. apply blocked_not_standalone; [done|].
  revert T' HT'. apply Forall_forall. repeat constructor.
Defined.

(** ** The image resolver *)

Section image_entry.
Import ImageBot.

Lemma get_label_info_present table lbl info :
  table !! lbl = Some info → _get_label_info table lbl = info.
Proof. unfold _get_label_info. by intros ->. Qed.

Lemma get_label_info_absent table lbl :
  table !! lbl = None →
  _get_label_info table lbl = (generic_description lbl, generic_meaning lbl).
Proof. unfold _get_label_info. by intros ->. Qed.

(** The text printed for a classified image is the text of that entry. *)
Lemma describe_image_success {Image} (W : World Image) path img conf pred_idx :
  isfile W path = true →
  lower (splitext W path).2 ∈ valid_extensions →
  open_image W path = inr img →
  classify W img = inr (conf, pred_idx) →
  describe_image W path =
    let e := resolve_prediction _LABEL_INFO (labels_of_model W) conf pred_idx in
    _format_entry (label e) (description e) (meaning e)
      (format_percent W (confidence e)).
Proof.
  intros Hf Hext Hopen Hcls. unfold describe_image.
  rewrite Hf. cbn [negb]. destruct (splitext W path) as [root ext].
  rewrite bool_decide_eq_true_2 by done. cbn [negb].
  by rewrite Hopen, Hcls.
Qed.

(** C8.  For an image that is read and classified: below the threshold
    0.15, [describe_image] prints the "unknown object" entry with the two
    fixed messages, whatever the table holds for the predicted label; from
    the threshold on, it prints the classifier's label with the table's
    description and meaning for it, or with the generic templates built on
    the label, an ASCII text, when the table has none.  The confidence
    printed is that of the classifier in every case. *)
Theorem C8_confidence_threshold {Image} (W : World Image)
    path img (conf : Q) (pred_idx : Z) :
  isfile W path = true →
  lower (splitext W path).2 ∈ valid_extensions →
  open_image W path = inr img →
  classify W img = inr (conf, pred_idx) →
  let lbl := pick_label (labels_of_model W) pred_idx in
  let percent := format_percent W conf in
  ((conf < 15 # 100)%Q →
     describe_image W path =
       _format_entry (lit "unknown object")
         (lit "The classifier could not identify this image with high confidence.")
         (lit "Try uploading a clearer photo or a different angle.")
         percent
     ∧ ∀ table,
         let e := resolve_prediction table (labels_of_model W) conf pred_idx in
         label e = lit "unknown object"
         ∧ description e =
             lit "The classifier could not identify this image with high confidence."
         ∧ meaning e = lit "Try uploading a clearer photo or a different angle."
         ∧ confidence e = conf)
  ∧ ((15 # 100 <= conf)%Q →
     (∀ d m, _LABEL_INFO !! lbl = Some (d, m) →
        describe_image W path = _format_entry lbl d m percent)
     ∧ (_LABEL_INFO !! lbl = None → Spec.ascii_text lbl →
        describe_image W path =
          _format_entry lbl
            (lit "An image likely depicting: " ++ lbl ++ lit ".")
            (lit "'" ++ title lbl ++
             lit "' is a concept or object recognized by the image " ++
             lit "classifier. Consult a reference for more context.")
            percent)).
Proof.
  intros Hf Hext Hopen Hcls lbl percent.
  rewrite (describe_image_success W path img conf pred_idx Hf Hext Hopen Hcls).
  cbv zeta. subst lbl percent. split.
  - intros Hlt. split.
    + unfold resolve_prediction, threshold.
      destruct (Qlt_le_dec conf (15 # 100)) as [_|Hge]; [done|].
      exfalso. by apply (Qlt_not_le _ _ Hlt).
    + intros table. unfold resolve_prediction, threshold.
      destruct (Qlt_le_dec conf (15 # 100)) as [_|Hge]; [done|].
      exfalso. by apply (Qlt_not_le _ _ Hlt).
  - intros Hge. unfold resolve_prediction, threshold.
    destruct (Qlt_le_dec conf (15 # 100)) as [Hlt|_].
    { exfalso. by apply (Qlt_not_le _ _ Hlt). }
    split.
    + intros d m Hin. by rewrite (get_label_info_present _ _ _ Hin).
    + intros Hout _. by rewrite (get_label_info_absent _ _ Hout).
Qed.

End image_entry.

Lemma jpg_is_valid : lit ".jpg" ∈ ImageBot.valid_extensions.
Proof.
  unfold ImageBot.valid_extensions. rewrite !elem_of_union, !elem_of_singleton.
  by repeat left.
Qed.

Lemma C8_confidence_threshold_witness :
  ((1 # 10 < 15 # 100)%Q
   ∧ ImageBot.describe_image
       (Samples.photo_booth (1 # 10) (lit "10.00%")) (lit "cat.jpg")
     = ImageBot._format_entry (lit "unknown object")
         (lit "The classifier could not identify this image with high confidence.")
         (lit "Try uploading a clearer photo or a different angle.")
         (lit "10.00%"))
  ∧ ((15 # 100 <= 82 # 100)%Q
     ∧ ImageBot.describe_image
         (Samples.photo_booth (82 # 100) (lit "82.00%")) (lit "cat.jpg")
       = ImageBot._format_entry (lit "tabby")
           (lit "A tabby cat with distinctive striped or spotted fur markings.")
           (lit "A domestic cat pattern; one of the most common coat types in household cats.")
           (lit "82.00%")).
Proof.
  split.
  - assert (Hlt : (1 # 10 < 15 # 100)%Q) by reflexivity.
    split; [exact Hlt|].
    destruct (C8_confidence_threshold
                (Samples.photo_booth (1 # 10) (lit "10.00%"))
                (lit "cat.jpg") tt (1 # 10) 0 eq_refl jpg_is_valid
                eq_refl eq_refl) as (Hlow & _).
    exact (proj1 (Hlow Hlt)).
  - assert (Hge : (15 # 100 <= 82 # 100)%Q) by discriminate.
    split; [exact Hge|].
    destruct (C8_confidence_threshold
                (Samples.photo_booth (82 # 100) (lit "82.00%"))
                (lit "cat.jpg") tt (82 # 100) 0 eq_refl jpg_is_valid
                eq_refl eq_refl) as (_ & Hhigh).
    destruct (Hhigh Hge) as (Hpresent & _).
    exact (Hpresent _ _ eq_refl).
Defined.

(** ** Lines of a text *)

Section lines.
Import Spec.

Lemma splitlines_from_no_break cur l rest :
  no_break l → splitlines_from cur (l ++ rest) = splitlines_from (cur ++ l) rest.
Proof.
  intros Hl. revert cur. induction Hl as [|c l Hc _ IH]; intros cur.
  - by rewrite app_nil_r.
  - cbn [app splitlines_from].
    rewrite bool_decide_eq_false_2 by (intros ->; discriminate Hc).
    rewrite Hc, IH. by rewrite <- app_assoc.
Qed.

Lemma splitlines_from_LF cur rest :
  splitlines_from cur (LF :: rest) = cur :: splitlines_from [] rest.
Proof. reflexivity. Qed.

Lemma join_cons_cons sep (x y : list ascii) l :
  join sep (x :: y :: l) = x ++ sep ++ join sep (y :: l).
Proof. reflexivity. Qed.

Lemma join_app sep (l1 l2 : list (list ascii)) :
  l1 ≠ [] → l2 ≠ [] → join sep (l1 ++ l2) = join sep l1 ++ sep ++ join sep l2.
Proof.
  intros H1 H2. induction l1 as [|x [|y l1] IH]; [done| |].
  - destruct l2; [done|]. reflexivity.
  - change ((x :: y :: l1) ++ l2) with (x :: y :: (l1 ++ l2)).
    rewrite !join_cons_cons.
    change (y :: l1 ++ l2) with ((y :: l1) ++ l2).
    rewrite IH by done. by rewrite <- !app_assoc.
Qed.

Lemma splitlines_join lines :
  Forall no_break lines → Forall (λ l, l ≠ []) lines →
  splitlines (join nl lines) = lines.
Proof.
  unfold splitlines.
  induction lines as [|l [|l2 lines] IH]; intros Hnb Hne; [done| |].
  - simpl. apply Forall_cons in Hnb as [Hl _]. apply Forall_cons in Hne as [Hn _].
    rewrite <- (app_nil_r l) at 1. rewrite splitlines_from_no_break by done.
    simpl. by rewrite bool_decide_eq_false_2.
  - rewrite join_cons_cons.
    apply Forall_cons in Hnb as [Hl Hnb]. apply Forall_cons in Hne as [_ Hne].
    rewrite splitlines_from_no_break by done.
    change (nl ++ join nl (l2 :: lines)) with (LF :: join nl (l2 :: lines)).
    rewrite splitlines_from_LF. f_equal. by apply IH.
Qed.

Lemma no_break_app a b : no_break (a ++ b) ↔ no_break a ∧ no_break b.
Proof. apply Forall_app. Qed.

Lemma no_break_join sep parts :
  no_break sep → Forall no_break parts → no_break (join sep parts).
Proof.
  intros Hsep. induction parts as [|x [|y parts] IH]; intros Hp.
  - constructor.
  - by apply Forall_cons in Hp as [? _].
  - rewrite join_cons_cons. apply Forall_cons in Hp as [Hx Hp].
    rewrite !no_break_app. auto.
Qed.

Lemma no_break_term name : no_break name → no_break (term name).
Proof.
  unfold no_break, term, replace_char. rewrite Forall_map. intros H.
  eapply Forall_impl; [exact H|]. intros c Hc. simpl. by case_bool_decide.
Qed.

(** ** Trimming *)

Lemma lstrip_app_blank a b : blank a → lstrip (a ++ b) = lstrip b.
Proof. induction 1 as [|c a Hc _ IH]; simpl; [done|]. by rewrite Hc. Qed.

Lemma strip_app_blank a b : blank a → strip (a ++ b) = strip b.
Proof. intros H. unfold strip. by rewrite lstrip_app_blank. Qed.

Lemma lstrip_rstrip s : lstrip (rstrip (lstrip s)) = rstrip (lstrip s).
Proof.
  unfold rstrip.
  destruct (lstrip s) as [|c t] eqn:E; [done|].
  assert (Hc : is_space c = false).
  { destruct s as [|d s]; [done|]. revert E.
    induction (d :: s) as [|e u IH]; simpl; [done|].
    destruct (is_space e) eqn:He; [done|]. by intros [= <- <-]. }
  rewrite reverse_cons.
  destruct (lstrip (reverse t ++ [c])) as [|x v] eqn:E2.
  - apply lstrip_nil_blank, Forall_app in E2 as [_ E2].
    apply Forall_cons in E2 as [? _]. congruence.
  - assert (Hlast : ∃ v', x :: v = v' ++ [c]).
    { revert E2. generalize (reverse t). intros r.
      induction r as [|y r IH]; simpl.
      - rewrite Hc. intros [= <- <-]. by exists [].
      - destruct (is_space y); [done|]. intros [= <- <-].
        by exists (y :: r). }
    destruct Hlast as [v' ->]. rewrite reverse_app. simpl. by rewrite Hc.
Qed.

Lemma strip_strip s : strip (strip s) = strip s.
Proof.
  unfold strip at 1. rewrite (lstrip_rstrip s : lstrip (strip s) = strip s).
  unfold strip, rstrip. rewrite reverse_involutive, lstrip_idem. done.
Qed.

(** The value of a field with one value line. *)
Lemma accumulate_one line : accumulate [line] = strip line.
Proof.
  unfold accumulate, accumulate_from. cbn [fold_left]. rewrite app_nil_l.
  rewrite strip_app_blank by (by repeat constructor). apply strip_strip.
Qed.

End lines.

(** ** Parsing a formatted block *)

Section parsing.
Import ImageBot Spec.

Lemma is_header_header name : is_header (header name) = true.
Proof.
  unfold is_header, header, endswith.
  rewrite !reverse_app. apply andb_true_iff. split; reflexivity.
Qed.

Lemma header_no_break name : no_break name → no_break (header name).
Proof.
  intros H. unfold header. rewrite !no_break_app.
  split; [by repeat constructor|]. split; [done | by repeat constructor].
Qed.

Lemma parse_step_header result key name :
  field_name_ok name →
  parse_step (result, key) (header name) = (<[ name := [] ]> result, Some name).
Proof.
  intros (_ & Hstrip & _). unfold parse_step.
  change (startswith (header name) (lit "[") && endswith (header name) (lit "]"))
    with (is_header (header name)).
  by rewrite is_header_header, Hstrip.
Qed.

Lemma parse_step_value (result : gmap (list ascii) (list ascii)) name line acc :
  name ≠ [] → is_header line = false → result !! name = Some acc →
  parse_step (result, Some name) line
  = (<[ name := strip (acc ++ lit " " ++ strip line) ]> result, Some name).
Proof.
  intros Hname Hline Hacc. unfold parse_step.
  change (startswith line (lit "[") && endswith line (lit "]"))
    with (is_header line).
  rewrite Hline, Hacc. by destruct name.
Qed.

Lemma parse_values (lines : list (list ascii)) (result : gmap (list ascii) (list ascii)) name acc :
  name ≠ [] → Forall (λ l, is_header l = false) lines →
  result !! name = Some acc →
  fold_left parse_step lines (result, Some name)
  = (<[ name := accumulate_from acc lines ]> result, Some name).
Proof.
  intros Hname Hlines. revert result acc.
  induction Hlines as [|line lines Hline _ IH]; intros result acc Hacc.
  - simpl. by rewrite insert_id.
  - cbn [fold_left]. rewrite (parse_step_value _ _ _ acc) by done.
    rewrite (IH _ (strip (acc ++ lit " " ++ strip line)))
      by apply lookup_insert_eq.
    by rewrite insert_insert_eq.
Qed.

Lemma parse_section (field : list ascii * list (list ascii)) (result : gmap (list ascii) (list ascii)) key :
  field_ok field →
  fold_left parse_step (section_lines field) (result, key)
  = (<[ field.1 := accumulate field.2 ]> result, Some field.1).
Proof.
  intros [Hname Hvals]. unfold section_lines. cbn [fold_left].
  rewrite parse_step_header by done.
  rewrite (parse_values _ _ _ []).
  - by rewrite insert_insert_eq.
  - by destruct Hname.
  - eapply Forall_impl; [exact Hvals|]. by intros l (_ & ? & _).
  - apply lookup_insert_eq.
Qed.

Lemma parse_sections (fields : list (list ascii * list (list ascii))) (result : gmap (list ascii) (list ascii)) key :
  Forall field_ok fields →
  (fold_left parse_step (concat (map section_lines fields)) (result, key)).1
  = fold_left (λ m field, <[ field.1 := accumulate field.2 ]> m) fields result.
Proof.
  intros Hok. revert result key.
  induction Hok as [|field fields Hf _ IH]; intros result key; [done|].
  cbn [map concat]. rewrite fold_left_app, parse_section by done. apply IH.
Qed.

Lemma section_lines_ok field :
  field_ok field →
  Forall no_break (section_lines field)
  ∧ Forall (λ l, l ≠ []) (section_lines field).
Proof.
  intros [(Hne & _ & Hnb) Hvals]. unfold section_lines. split.
  - constructor; [by apply header_no_break|].
    eapply Forall_impl; [exact Hvals|]. by intros l (_ & _ & ?).
  - constructor; [done|].
    eapply Forall_impl; [exact Hvals|]. by intros l (? & _).
Qed.

(** Parsing a block gives every field the value accumulated from its
    lines. *)
Lemma parse_entry_block fields :
  Forall field_ok fields → parse_entry (block fields) = parsed fields.
Proof.
  intros Hok. unfold parse_entry, block, parsed.
  rewrite splitlines_join.
  - by apply parse_sections.
  - apply Forall_concat, Forall_map.
    eapply Forall_impl; [exact Hok|]. intros f Hf. by apply section_lines_ok.
  - apply Forall_concat, Forall_map.
    eapply Forall_impl; [exact Hok|]. intros f Hf. by apply section_lines_ok.
Qed.

Lemma indented_value_ok v : no_break v → value_line_ok (lit "  " ++ v).
Proof.
  intros Hv. split; [done|]. split; [done|].
  apply no_break_app. split; [by repeat constructor | done].
Qed.

End parsing.

(** ** The formatters print blocks *)

Section formatters.
Import Spec.

Lemma block_one field : block [field] = join nl (section_lines field).
Proof. unfold block. simpl. by rewrite app_nil_r. Qed.

Lemma block_cons field f fields :
  block (field :: f :: fields)
  = join nl (section_lines field) ++ nl ++ block (f :: fields).
Proof. unfold block. cbn [map concat]. by apply join_app. Qed.

Lemma join_section name v vals :
  join nl (section_lines (name, v :: vals))
  = header name ++ nl ++ join nl (v :: vals).
Proof. reflexivity. Qed.

Lemma examples_text_lines (examples : list (list ascii)) :
  (if WordBot.nonempty examples
   then join nl (map (λ ex, lit "  - " ++ ex) examples)
   else lit "  - (no example available)")
  = join nl (example_lines examples).
Proof. by destruct examples. Qed.

Lemma example_lines_cons examples :
  ∃ v vals, example_lines examples = v :: vals.
Proof. destruct examples; simpl; eauto. Qed.

Lemma word_entry_is_block w p pr d examples synonyms :
  WordBot._format_entry w p pr d examples synonyms
  = block (word_fields w p pr d examples synonyms).
Proof.
  unfold WordBot._format_entry, word_fields.
  rewrite examples_text_lines.
  destruct (example_lines_cons examples) as (v & vals & ->).
  rewrite !block_cons, block_one, !join_section.
  change (if WordBot.nonempty synonyms then join (lit ", ") synonyms
          else lit "(none)") with (synonyms_text synonyms).
  unfold header. rewrite <- !app_assoc. reflexivity.
Qed.

Lemma not_found_is_block w :
  WordBot._format_not_found w = block (not_found_fields w).
Proof.
  unfold WordBot._format_not_found, not_found_fields.
  rewrite !block_cons, block_one, !join_section.
  unfold header. rewrite <- !app_assoc. reflexivity.
Qed.

Lemma image_entry_is_block label description meaning percent :
  ImageBot._format_entry label description meaning percent
  = block (image_fields label description meaning percent).
Proof.
  unfold ImageBot._format_entry, image_fields.
  rewrite !block_cons, block_one, !join_section.
  unfold header. rewrite <- !app_assoc. reflexivity.
Qed.

Lemma error_entry_is_block message :
  ImageBot._format_error message = block (error_fields message).
Proof.
  unfold ImageBot._format_error, error_fields.
  rewrite !block_cons, block_one, !join_section.
  unfold header. rewrite <- !app_assoc. reflexivity.
Qed.

End formatters.

(** ** Parsing what the formatters print *)

Section round_trip.
Import Spec.

Ltac name_ok := split; [done | split; [reflexivity | by repeat constructor]].
Ltac fixed_line_ok :=
  split; [done | split; [reflexivity | by repeat constructor]].

Lemma example_lines_ok examples :
  Forall no_break examples → Forall value_line_ok (example_lines examples).
Proof.
  intros H. destruct examples as [|ex examples].
  - constructor; [fixed_line_ok | constructor].
  - unfold example_lines. cbn [WordBot.nonempty]. rewrite Forall_map.
    eapply Forall_impl; [exact H|]. intros e He.
    split; [done|]. split; [done|].
    apply no_break_app. split; [by repeat constructor | done].
Qed.

Lemma synonyms_text_no_break synonyms :
  Forall no_break synonyms → no_break (synonyms_text synonyms).
Proof.
  intros H. destruct synonyms as [|s synonyms]; [by repeat constructor|].
  unfold synonyms_text. cbn [WordBot.nonempty].
  apply no_break_join; [by repeat constructor | done].
Qed.

Lemma field_ok_single name v :
  field_name_ok name → no_break v → field_ok (name, [lit "  " ++ v]).
Proof.
  intros Hn Hv. split; [done|]. constructor; [|constructor].
  by apply indented_value_ok.
Qed.

Lemma field_ok_fixed name line :
  field_name_ok name → value_line_ok line → field_ok (name, [line]).
Proof.
  intros Hn Hl. split; [done|]. by constructor; [|constructor].
Qed.

Lemma word_fields_ok w p pr d examples synonyms :
  no_break w → no_break p → no_break pr → no_break d →
  Forall no_break examples → Forall no_break synonyms →
  Forall field_ok (word_fields w p pr d examples synonyms).
Proof.
  intros Hw Hp Hpr Hd Hex Hsy. unfold word_fields.
  constructor; [apply field_ok_single; [name_ok | exact Hw]|].
  constructor; [apply field_ok_single; [name_ok | exact Hp]|].
  constructor; [apply field_ok_single; [name_ok | exact Hpr]|].
  constructor; [apply field_ok_single; [name_ok | exact Hd]|].
  constructor; [split; [name_ok | exact (example_lines_ok _ Hex)]|].
  constructor; [|constructor].
  apply field_ok_single; [name_ok | exact (synonyms_text_no_break _ Hsy)].
Qed.

Lemma not_found_fields_ok w :
  no_break w → Forall field_ok (not_found_fields w).
Proof.
  intros Hw. unfold not_found_fields.
  constructor; [apply field_ok_single; [name_ok | exact Hw]|].
  constructor; [apply field_ok_fixed; [name_ok | fixed_line_ok]|].
  constructor; [apply field_ok_fixed; [name_ok | fixed_line_ok]|].
  constructor; [apply field_ok_fixed; [name_ok | fixed_line_ok]|].
  constructor; [apply field_ok_fixed; [name_ok | fixed_line_ok]|].
  constructor; [|constructor].
  apply field_ok_fixed; [name_ok | fixed_line_ok].
Qed.

Lemma image_fields_ok label description meaning percent :
  no_break label → no_break description → no_break meaning →
  no_break percent →
  Forall field_ok (image_fields label description meaning percent).
Proof.
  intros H1 H2 H3 H4. unfold image_fields.
  constructor; [apply field_ok_single; [name_ok | exact H1]|].
  constructor; [apply field_ok_single; [name_ok | exact H2]|].
  constructor; [apply field_ok_single; [name_ok | exact H3]|].
  constructor; [|constructor].
  apply field_ok_single; [name_ok | exact H4].
Qed.

Lemma error_fields_ok message :
  no_break message → Forall field_ok (error_fields message).
Proof.
  intros Hm. unfold error_fields.
  constructor; [apply field_ok_fixed; [name_ok | fixed_line_ok]|].
  constructor; [apply field_ok_single; [name_ok | exact Hm]|].
  constructor; [|constructor].
  apply field_ok_fixed; [name_ok | fixed_line_ok].
Qed.

Lemma accumulate_indented v : accumulate [lit "  " ++ v] = strip v.
Proof.
  rewrite accumulate_one. apply strip_app_blank. by repeat constructor.
Qed.

Lemma parse_word_entry w p pr d examples synonyms :
  no_break w → no_break p → no_break pr → no_break d →
  Forall no_break examples → Forall no_break synonyms →
  ImageBot.parse_entry (WordBot._format_entry w p pr d examples synonyms)
  = <[ lit "synonyms" := strip (synonyms_text synonyms) ]>
      (<[ lit "examples" := accumulate (example_lines examples) ]>
         (<[ lit "definition" := strip d ]>
            (<[ lit "pronunciation" := strip pr ]>
               (<[ lit "part_of_speech" := strip p ]>
                  (<[ lit "word" := strip w ]> ∅))))).
Proof.
  intros. rewrite word_entry_is_block, parse_entry_block
    by (by apply word_fields_ok).
  unfold parsed, word_fields. cbn [fold_left fst snd].
  by rewrite !accumulate_indented.
Qed.

Lemma parse_not_found w :
  no_break w →
  ImageBot.parse_entry (WordBot._format_not_found w) !! lit "word"
  = Some (strip w).
Proof.
  intros. rewrite not_found_is_block, parse_entry_block
    by (by apply not_found_fields_ok).
  unfold parsed, not_found_fields. cbn [fold_left fst snd].
  rewrite !lookup_insert_ne by done.
  by rewrite lookup_insert_eq, accumulate_indented.
Qed.

Lemma parse_image_entry label description meaning percent :
  no_break label → no_break description → no_break meaning →
  no_break percent →
  ImageBot.parse_entry
    (ImageBot._format_entry label description meaning percent)
  = <[ lit "confidence" := strip percent ]>
      (<[ lit "meaning" := strip meaning ]>
         (<[ lit "description" := strip description ]>
            (<[ lit "label" := strip label ]> ∅))).
Proof.
  intros. rewrite image_entry_is_block, parse_entry_block
    by (by apply image_fields_ok).
  unfold parsed, image_fields. cbn [fold_left fst snd].
  by rewrite !accumulate_indented.
Qed.

Lemma parse_error_entry message :
  no_break message →
  ImageBot.parse_entry (ImageBot._format_error message)
  = <[ lit "meaning" := lit "N/A" ]>
      (<[ lit "description" := strip message ]>
         (<[ lit "label" := lit "unknown" ]> ∅)).
Proof.
  intros. rewrite error_entry_is_block, parse_entry_block
    by (by apply error_fields_ok).
  unfold parsed, error_fields. cbn [fold_left fst snd].
  by rewrite accumulate_indented.
Qed.

End round_trip.

(** ** Entries of single-line senses *)

Section single_line.
Import WordBot Spec.

Lemma pos_readable_no_break wn_pos : no_break (_pos_readable wn_pos).
Proof.
  unfold _pos_readable.
  destruct (_POS_MAP !! wn_pos) as [v|] eqn:E; [|by repeat constructor].
  apply elem_of_list_to_map_2 in E. simpl.
  repeat (apply elem_of_cons in E as [E|E];
          [injection E as _ ->; by repeat constructor|]).
  by apply elem_of_nil in E.
Qed.

Lemma collect_examples_one_sense primary rest :
  ∃ ss, ss ∈ primary :: take 3 rest
        ∧ collect_examples (primary :: rest) primary = take 2 (examples ss).
Proof.
  unfold collect_examples. change (drop 1 (primary :: rest)) with rest.
  destruct (nonempty (take 2 (examples primary))) eqn:Hn.
  - exists primary. split; [left | done].
  - destruct (take 2 (examples primary)) eqn:Hp; [|done].
    destruct (examples_loop_one_sense (take 3 rest)) as [H|(ss & Hin & H)].
    + exists primary. split; [left | by rewrite Hp].
    + exists ss. split; [by right | done].
Qed.

Lemma collect_examples_no_break primary rest :
  Forall single_line_sense (primary :: take 3 rest) →
  Forall no_break (collect_examples (primary :: rest) primary).
Proof.
  intros Hall.
  destruct (collect_examples_one_sense primary rest) as (ss & Hin & ->).
  rewrite Forall_forall in Hall. destruct (Hall ss Hin) as (_ & Hex & _).
  by apply Forall_take.
Qed.

Lemma collect_all_synonyms_no_break primary rest w :
  Forall single_line_sense (primary :: take 3 rest) →
  Forall no_break (collect_all_synonyms (primary :: rest) primary w).
Proof.
  intros Hall. rewrite collect_all_synonyms_spec.
  apply Forall_forall. intros x Hx.
  apply elem_of_synonyms_of in Hx as (ss & Hin & Hx).
  apply elem_of_collected_terms in Hx as (name & Hname & _ & ->).
  rewrite Forall_forall in Hall. destruct (Hall ss Hin) as (_ & _ & Hnames).
  rewrite Forall_forall in Hnames. apply no_break_term. by apply Hnames.
Qed.

Lemma plain_no_break s : plain s → no_break s.
Proof. by intros [_ ?]. Qed.

Lemma Forall_plain_no_break l : Forall plain l → Forall no_break l.
Proof.
  intros H. eapply Forall_impl; [exact H|]. intros s. apply plain_no_break.
Qed.

Lemma plain_sense_single_line ss : plain_sense ss → single_line_sense ss.
Proof.
  intros (Hd & Hex & Hnames). split; [by apply plain_no_break|].
  split; by apply Forall_plain_no_break.
Qed.

Lemma Forall_plain_sense_single_line senses :
  Forall plain_sense senses → Forall single_line_sense senses.
Proof.
  intros H. eapply Forall_impl; [exact H|]. intros ss.
  apply plain_sense_single_line.
Qed.

End single_line.

(** ** Round trip *)

Section round_trip_claims.
Import Spec.

Lemma define_word_dog (synsets_of : list ascii → list WordBot.Synset) :
  WordBot.define_word synsets_of (lit "dog")
  = match synsets_of (lit "dog") with
    | [] => WordBot._format_not_found (lit "dog")
    | primary :: _ =>
        WordBot._format_entry (lit "dog")
          (WordBot._pos_readable (WordBot.pos primary)) (lit "N/A")
          (WordBot.definition primary)
          (WordBot.collect_examples (synsets_of (lit "dog")) primary)
          (WordBot.collect_all_synonyms (synsets_of (lit "dog")) primary
             (lit "dog"))
    end.
Proof. reflexivity. Qed.

(** C9 (amended).  For an entry whose texts are ASCII texts without line
    break, parsing the formatted block gives every field its text, trimmed;
    the example lines are joined by single spaces.  So it is for image
    entries.  For the word "dog" and senses whose texts are ASCII texts
    without line break, the parsed entry has "dog" under the key "word". *)
Theorem C9_round_trip :
  (∀ w p pr d examples synonyms,
     plain w → plain p → plain pr → plain d →
     Forall plain examples → Forall plain synonyms →
     let m := ImageBot.parse_entry
                (WordBot._format_entry w p pr d examples synonyms) in
     m !! lit "word" = Some (strip w)
     ∧ m !! lit "part_of_speech" = Some (strip p)
     ∧ m !! lit "pronunciation" = Some (strip pr)
     ∧ m !! lit "definition" = Some (strip d)
     ∧ m !! lit "examples" = Some (accumulate (example_lines examples))
     ∧ m !! lit "synonyms" = Some (strip (synonyms_text synonyms)))
  ∧ (∀ label description meaning percent,
       plain label → plain description → plain meaning → plain percent →
       let m := ImageBot.parse_entry
                  (ImageBot._format_entry label description meaning percent) in
       m !! lit "label" = Some (strip label)
       ∧ m !! lit "description" = Some (strip description)
       ∧ m !! lit "meaning" = Some (strip meaning)
       ∧ m !! lit "confidence" = Some (strip percent))
  ∧ (∀ synsets_of : list ascii → list WordBot.Synset,
       Forall plain_sense (take 4 (synsets_of (lit "dog"))) →
       ImageBot.parse_entry (WordBot.define_word synsets_of (lit "dog"))
         !! lit "word" = Some (lit "dog")).
Proof.
  split; [|split].
  - intros w p pr d examples synonyms Hw Hp Hpr Hd Hex Hsy m. subst m.
    rewrite parse_word_entry
      by (by apply plain_no_break || by apply Forall_plain_no_break).
    repeat split;
      (rewrite ?lookup_insert_ne by done; by rewrite lookup_insert_eq).
  - intros label description meaning percent H1 H2 H3 H4 m. subst m.
    rewrite parse_image_entry by (by apply plain_no_break).
    repeat split;
      (rewrite ?lookup_insert_ne by done; by rewrite lookup_insert_eq).
  - intros synsets_of Hplain. rewrite define_word_dog.
    assert (Hall := Forall_plain_sense_single_line _ Hplain).
    assert (Hdog : no_break (lit "dog")) by (by repeat constructor).
    destruct (synsets_of (lit "dog")) as [|primary rest] eqn:Hs.
    + by rewrite parse_not_found.
    + change (take 4 (primary :: rest)) with (primary :: take 3 rest) in Hall.
      rewrite parse_word_entry.
      * rewrite !lookup_insert_ne by done. by rewrite lookup_insert_eq.
      * done.
      * apply pos_readable_no_break.
      * by repeat constructor.
      * apply Forall_cons in Hall as [(? & _) _]. done.
      * by apply collect_examples_no_break.
      * by apply collect_all_synonyms_no_break.
Qed.

(** C9, as first stated, fails: a query with a vertical tab in it has no
    sense; its entry is printed with the word on two lines, and the parsed
    entry has another word, the two lines joined by a space. *)
Lemma C9_line_break_in_word :
  let query := lit "do" ++ [VT] ++ lit "g" in
  Samples.wordnet (lower (strip query)) = []
  ∧ WordBot.word (WordBot.define_word_json Samples.wordnet query) = query
  ∧ ImageBot.parse_entry (WordBot.define_word Samples.wordnet query)
      !! lit "word" = Some (lit "do g")
  ∧ ImageBot.parse_entry (WordBot.define_word Samples.wordnet query)
      !! lit "word" ≠ Some query.
Proof.
  cbv zeta.
  assert (H : ImageBot.parse_entry
                (WordBot.define_word Samples.wordnet
                   (lit "do" ++ [VT] ++ lit "g"))
                !! lit "word" = Some (lit "do g")) by (by vm_compute).
  split; [by vm_compute|]. split; [by vm_compute|].
  split; [exact H|]. rewrite H. by vm_compute.
Qed.

Lemma describe_image_failure {Image} (W : ImageBot.World Image) path message :
  failure W path message →
  ImageBot.describe_image W path = ImageBot._format_error message.
Proof.
  intros Hfail. unfold ImageBot.describe_image.
  destruct Hfail as [Hf|Hf Hext|exc Hf Hext Hopen|img exc Hf Hext Hopen Hcls];
    rewrite Hf; cbn [negb]; [done|..];
    destruct (ImageBot.splitext W path) as [root ext]; cbn [snd] in *.
  - by rewrite bool_decide_eq_false_2.
  - rewrite bool_decide_eq_true_2 by done. cbn [negb]. by rewrite Hopen.
  - rewrite bool_decide_eq_true_2 by done. cbn [negb].
    by rewrite Hopen, Hcls.
Qed.

(** C10 (amended).  A failure of [describe_image] whose message is an ASCII
    text without line break is reported in six lines: the three fields
    [label] "unknown", [description] the message, [meaning] "N/A".  The
    parsed entry has these three keys and no key "confidence". *)
Theorem C10_error_entry {Image} (W : ImageBot.World Image) path message :
  failure W path message →
  plain message →
  splitlines (ImageBot.describe_image W path)
  = [ lit "[label]"; lit "  unknown";
      lit "[description]"; lit "  " ++ message;
      lit "[meaning]"; lit "  N/A" ]
  ∧ ImageBot.describe_image_json W path
    = <[ lit "meaning" := lit "N/A" ]>
        (<[ lit "description" := strip message ]>
           (<[ lit "label" := lit "unknown" ]> ∅))
  ∧ ImageBot.describe_image_json W path !! lit "confidence" = None.
Proof.
  intros Hfail [_ Hnb].
  assert (Htext := describe_image_failure W path message Hfail).
  split; [|split].
  - rewrite Htext, error_entry_is_block. unfold block.
    pose proof (error_fields_ok message Hnb) as Hok.
    rewrite splitlines_join; [reflexivity|..];
      apply Forall_concat, Forall_map;
      (eapply Forall_impl; [exact Hok|]); intros f Hf;
      by apply section_lines_ok.
  - unfold ImageBot.describe_image_json.
    by rewrite Htext, parse_error_entry.
  - unfold ImageBot.describe_image_json.
    rewrite Htext, parse_error_entry by done. by rewrite !lookup_insert_ne.
Qed.

(** C10, as first stated, fails: a path with line breaks in it, of a file
    that does not exist, is reported with a line [[confidence]], and the
    parsed entry has a fourth key. *)
Lemma C10_line_break_in_path :
  let path := lit "a" ++ nl ++ lit "[confidence]" ++ nl ++ lit "99.00%.png" in
  failure Samples.empty_disk path (lit "File not found: " ++ path)
  ∧ lit "[confidence]"
      ∈ splitlines (ImageBot.describe_image Samples.empty_disk path)
  ∧ ImageBot.describe_image_json Samples.empty_disk path !! lit "confidence"
    = Some (lit "99.00%.png").
Proof.
  cbv zeta. split; [by apply missing_file|].
  split; [|by vm_compute].
  apply (bool_decide_unpack _). by vm_compute.
Qed.

Lemma resolve_prediction_confidence table labels conf pred_idx :
  ImageBot.confidence (ImageBot.resolve_prediction table labels conf pred_idx)
  = conf.
Proof.
  unfold ImageBot.resolve_prediction.
  destruct (Qlt_le_dec conf ImageBot.threshold); [done|].
  by destruct (ImageBot._get_label_info table _).
Qed.

(** A classified image is printed with the four fields, [confidence] last. *)
Lemma classified_image_has_confidence {Image} (W : ImageBot.World Image)
    path img conf pred_idx :
  ImageBot.isfile W path = true →
  lower (ImageBot.splitext W path).2 ∈ ImageBot.valid_extensions →
  ImageBot.open_image W path = inr img →
  ImageBot.classify W img = inr (conf, pred_idx) →
  ∃ label description meaning,
    ImageBot.describe_image W path
    = block [ (lit "label", [lit "  " ++ label]);
              (lit "description", [lit "  " ++ description]);
              (lit "meaning", [lit "  " ++ meaning]);
              (lit "confidence", [lit "  " ++ ImageBot.format_percent W conf]) ].
Proof.
  intros Hf Hext Hopen Hcls.
  rewrite (describe_image_success W path img conf pred_idx) by done.
  cbv zeta. rewrite image_entry_is_block.
  rewrite resolve_prediction_confidence. by eexists _, _, _.
Qed.

End round_trip_claims.

Lemma C9_round_trip_witness :
  (Spec.plain (lit "dog")
   ∧ ImageBot.parse_entry
       (WordBot._format_entry (lit "dog") (lit "noun") (lit "N/A")
          (lit "a member of the genus Canis")
          [lit "the dog barked"; lit "good dog"] [lit "hound"])
       !! lit "examples" = Some (lit "- the dog barked - good dog"))
  ∧ (Forall Spec.plain_sense (take 4 (Samples.wordnet (lit "dog")))
     ∧ ImageBot.parse_entry (WordBot.define_word Samples.wordnet (lit "dog"))
         !! lit "word" = Some (lit "dog")).
Proof.
  destruct C9_round_trip as (Hword & _ & Hdog).
  split.
  - assert (Hw : Spec.plain (lit "dog"))
      by (apply (bool_decide_unpack _); by vm_compute).
    split; [exact Hw|].
    refine (proj1 (proj2 (proj2 (proj2 (proj2
      (Hword (lit "dog") (lit "noun") (lit "N/A")
         (lit "a member of the genus Canis")
         [lit "the dog barked"; lit "good dog"] [lit "hound"]
         Hw _ _ _ _ _))))));
      apply (bool_decide_unpack _); by vm_compute.
  - assert (Hs : Forall Spec.plain_sense
                   (take 4 (Samples.wordnet (lit "dog"))))
      by (apply (bool_decide_unpack _); by vm_compute).
    split; [exact Hs | exact (Hdog Samples.wordnet Hs)].
Defined.

Lemma C10_error_entry_witness :
  (Spec.failure Samples.empty_disk (lit "cat.png")
     (lit "File not found: cat.png")
   ∧ Spec.plain (lit "File not found: cat.png"))
  ∧ splitlines (ImageBot.describe_image Samples.empty_disk (lit "cat.png"))
    = [ lit "[label]"; lit "  unknown";
        lit "[description]"; lit "  File not found: cat.png";
        lit "[meaning]"; lit "  N/A" ]
  ∧ ImageBot.describe_image_json Samples.empty_disk (lit "cat.png")
      !! lit "confidence" = None.
Proof.
  assert (Hf : Spec.failure Samples.empty_disk (lit "cat.png")
                 (lit "File not found: cat.png"))
    by (by apply (Spec.missing_file Samples.empty_disk (lit "cat.png"))).
  assert (Hp : Spec.plain (lit "File not found: cat.png"))
    by (apply (bool_decide_unpack _); by vm_compute).
  destruct (C10_error_entry Samples.empty_disk (lit "cat.png") _ Hf Hp)
    as (Hlines & _ & Hnone).
  split; [by split|]. split; [exact Hlines | exact Hnone].
Defined.

(** * Further properties of the code *)

(** ** Letter case and surrounding whitespace *)

Lemma to_lower_idem c : to_lower (to_lower c) = to_lower c.
Proof. each_char c; reflexivity. Qed.

Lemma lower_idem s : lower (lower s) = lower s.
Proof.
  unfold lower. rewrite map_map. apply map_ext. intros c. apply to_lower_idem.
Qed.

Lemma lower_lstrip s : lstrip (lower s) = lower (lstrip s).
Proof.
  induction s as [|c s IH]; [done|]. simpl.
  rewrite to_lower_is_space. by destruct (is_space c).
Qed.

Lemma lower_reverse s : reverse (lower s) = lower (reverse s).
Proof.
  unfold lower. induction s as [|c s IH]; [done|].
  simpl. by rewrite !reverse_cons, map_app, IH.
Qed.

Lemma lower_strip s : strip (lower s) = lower (strip s).
Proof.
  unfold strip, rstrip.
  by rewrite lower_lstrip, lower_reverse, lower_lstrip, lower_reverse.
Qed.

(** The normal form of a query word is stable. *)
Lemma normalise_idem s : lower (strip (lower (strip s))) = lower (strip s).
Proof. by rewrite lower_strip, strip_strip, lower_idem. Qed.

Section gate_letter_case.
Import Safety.

Lemma strip_nil_iff_blank s : strip s = [] ↔ Spec.blank s.
Proof. split; [apply strip_nil_blank | apply strip_blank]. Qed.

(** X1.  The verdict of the gate depends on the text up to letter case
    only. *)
Theorem gate_ignores_letter_case (a b : str) :
  lower a = lower b → is_safe_request a = is_safe_request b.
Proof.
  intros Hab.
  assert (Hblank : Spec.blank a ↔ Spec.blank b).
  { by rewrite <- (blank_lower a), <- (blank_lower b), Hab. }
  destruct (decide (Spec.blank a)) as [Ha|Ha].
  - rewrite !blank_passes; [done | by apply Hblank | done].
  - rewrite !is_safe_request_inspects; [by rewrite Hab | | done].
    intros Hb. by apply Ha, Hblank.
Qed.

Lemma gate_ignores_letter_case_witness :
  lower (lit "How to KILL time") = lower (lit "how to kill TIME")
  ∧ is_safe_request (lit "How to KILL time")
    = is_safe_request (lit "how to kill TIME").
Proof.
  assert (H : lower (lit "How to KILL time") = lower (lit "how to kill TIME"))
    by reflexivity.
  split; [exact H | exact (gate_ignores_letter_case _ _ H)].
Defined.

End gate_letter_case.

Section word_normal_form.
Import WordBot.
Variable synsets_of : list ascii → list Synset.

Lemma entry_word (word0 : str) :
  word (define_word_json synsets_of word0) = lower (strip word0).
Proof. unfold define_word_json. by destruct (synsets_of _). Qed.

(** X2.  The word of an entry is in normal form, trimmed and in lower case,
    and looking that word up gives the same entry and the same text: the
    lookup ignores letter case and surrounding whitespace. *)
Theorem lookup_ignores_case_and_padding (word0 : str) :
  let e := define_word_json synsets_of word0 in
  strip (word e) = word e ∧ lower (word e) = word e
  ∧ define_word_json synsets_of (word e) = e
  ∧ define_word synsets_of (word e) = define_word synsets_of word0.
Proof.
  cbv zeta. rewrite entry_word. repeat split.
  - by rewrite <- lower_strip, strip_strip.
  - apply lower_idem.
  - unfold define_word_json. by rewrite normalise_idem.
  - unfold define_word. by rewrite normalise_idem.
Qed.

(** X3.  For an empty or whitespace-only word the text form is the
    not-found block with an empty word, whatever the corpus holds. *)
Theorem define_word_blank (word0 : str) :
  Spec.blank word0 → define_word synsets_of word0 = _format_not_found [].
Proof.
  intros Hb. unfold define_word. by rewrite (strip_blank word0 Hb).
Qed.

End word_normal_form.

Lemma define_word_blank_witness :
  Spec.blank (lit "  ")
  ∧ WordBot.define_word (λ _, [Samples.dog_animal]) (lit "  ")
    = WordBot._format_not_found [].
Proof.
  assert (Hb : Spec.blank (lit "  ")) by (repeat constructor).
  split; [exact Hb | exact (define_word_blank _ _ Hb)].
Defined.

(** ** Synonym lists *)

Section synonym_lists.
Import WordBot Spec.

Lemma term_no_underscore name : underscore ∉ term name.
Proof.
  unfold term, replace_char. rewrite list_elem_of_In, in_map_iff.
  intros (c & Hc & _). by case_bool_decide.
Qed.

Lemma synonyms_of_NoDup w senses : NoDup (synonyms_of w senses).
Proof.
  destruct senses as [|primary rest]; [constructor|].
  cbn [synonyms_of]. case_decide.
  - eapply sublist_NoDup; [apply first_seen_NoDup | apply sublist_take].
  - eapply sublist_NoDup; [apply sorted_terms_NoDup | apply sublist_take].
Qed.

(** X5.  [_collect_synonyms] gives at most [limit] terms, in strictly
    alphabetical order; each is the displayed form of a lemma whose name
    differs from the query word; and the terms left out by the limit come
    after every term kept. *)
Theorem collect_synonyms_sorted_prefix (ss : Synset) (w : str) (limit : nat) :
  let result := _collect_synonyms ss w limit in
  length result ≤ limit
  ∧ StronglySorted str_le result ∧ NoDup result
  ∧ (∀ x, x ∈ result →
       ∃ name, name ∈ lemma_names ss ∧ lower name ≠ lower w ∧ x = term name)
  ∧ (∀ name, name ∈ lemma_names ss → lower name ≠ lower w →
       term name ∈ result
       ∨ (length result = limit ∧ ∀ x, x ∈ result → str_le x (term name))).
Proof.
  cbv zeta. rewrite collect_synonyms_spec.
  set (all := sorted_terms (collected_terms w ss)).
  assert (Hsorted : StronglySorted str_le (take limit all ++ drop limit all)).
  { rewrite take_drop. apply sorted_terms_sorted. }
  split; [rewrite length_take; lia|].
  split; [by apply StronglySorted_app in Hsorted as (_ & ? & _)|].
  split; [eapply sublist_NoDup; [apply sorted_terms_NoDup|apply sublist_take]|].
  split.
  - intros x Hx. apply subseteq_take in Hx.
    unfold all in Hx. rewrite elem_of_sorted_terms in Hx.
    by apply elem_of_collected_terms.
  - intros name Hin Hne.
    assert (Hall : term name ∈ take limit all ++ drop limit all).
    { rewrite take_drop. unfold all. rewrite elem_of_sorted_terms.
      apply elem_of_collected_terms. eauto. }
    apply elem_of_app in Hall as [Hkept|Hcut]; [by left|]. right. split.
    + rewrite length_take. apply Nat.min_l.
      destruct (decide (limit ≤ length all)) as [|Hshort]; [done|].
      rewrite drop_ge in Hcut by lia. by apply elem_of_nil in Hcut.
    + intros x Hx.
      by apply (StronglySorted_app_1_elem_of str_le _ _ _ _ Hsorted).
Qed.

End synonym_lists.

Section entry_synonym_invariants.
Import WordBot Spec.
Variable synsets_of : list ascii → list Synset.

(** X4.  The synonyms of an entry hold no term twice and no underscore. *)
Theorem synonyms_distinct_and_spaced (word0 : str) :
  let e := define_word_json synsets_of word0 in
  NoDup (synonyms e) ∧ ∀ s, s ∈ synonyms e → underscore ∉ s.
Proof.
  cbv zeta. rewrite synonyms_are_spec_synonyms. split.
  - apply synonyms_of_NoDup.
  - intros s Hs. apply elem_of_synonyms_of in Hs as (ss & _ & Hs).
    apply elem_of_collected_terms in Hs as (name & _ & _ & ->).
    apply term_no_underscore.
Qed.

End entry_synonym_invariants.

Section part_of_speech.
Import WordBot.

(** X6.  [_pos_readable] gives one of six labels: the label of the tag for
    the tags n, v, a, r and s, and "unknown" for every other tag. *)
Theorem pos_readable_range (wn_pos : str) :
  _pos_readable wn_pos
    ∈ [lit "noun"; lit "verb"; lit "adjective"; lit "adverb";
       lit "adjective satellite"; lit "unknown"]
  ∧ (wn_pos ∉ [lit "n"; lit "v"; lit "a"; lit "r"; lit "s"] →
     _pos_readable wn_pos = lit "unknown")
  ∧ (_pos_readable wn_pos = lit "noun" ↔ wn_pos = lit "n").
Proof.
  unfold _pos_readable.
  destruct (_POS_MAP !! wn_pos) as [v|] eqn:E.
  - apply elem_of_list_to_map_2 in E. cbn [default].
    repeat (apply elem_of_cons in E as [E|E];
            [injection E as -> ->;
             split; [repeat constructor|];
             split; [intros Hout; exfalso; apply Hout; repeat constructor|];
             by split|]).
    by apply elem_of_nil in E.
  - split; [repeat constructor|]. split; [done|]. cbn [default].
    split; [done|]. intros ->. by vm_compute in E.
Qed.

End part_of_speech.

(** ** The text form against the dict form *)

Section text_and_dict.
Import WordBot Spec.

Lemma no_break_lower s : no_break s → no_break (lower s).
Proof.
  unfold no_break, lower. rewrite Forall_map. intros H.
  eapply Forall_impl; [exact H|]. intros c. simpl. by each_char c.
Qed.

Lemma no_break_lstrip s : no_break s → no_break (lstrip s).
Proof.
  induction 1 as [|c s Hc Hs IH]; simpl; [constructor|].
  destruct (is_space c); [done | by constructor].
Qed.

Lemma no_break_strip s : no_break s → no_break (strip s).
Proof.
  intros H. unfold strip, rstrip, no_break.
  apply Forall_reverse, no_break_lstrip, Forall_reverse. by apply no_break_lstrip.
Qed.

Lemma pos_readable_trimmed wn_pos :
  strip (_pos_readable wn_pos) = _pos_readable wn_pos.
Proof.
  unfold _pos_readable.
  destruct (_POS_MAP !! wn_pos) as [v|] eqn:E; [|reflexivity].
  apply elem_of_list_to_map_2 in E. cbn [default].
  repeat (apply elem_of_cons in E as [E|E];
          [injection E as _ ->; reflexivity|]).
  by apply elem_of_nil in E.
Qed.

Lemma parse_not_found_entry w :
  no_break w →
  ImageBot.parse_entry (_format_not_found w)
  = <[ lit "synonyms" := lit "(none)" ]>
      (<[ lit "examples" := lit "- (none)" ]>
         (<[ lit "definition" :=
               lit "No entry found. Check spelling or try a simpler term." ]>
            (<[ lit "pronunciation" := lit "N/A" ]>
               (<[ lit "part_of_speech" := lit "unknown" ]>
                  (<[ lit "word" := strip w ]> ∅))))).
Proof.
  intros. rewrite not_found_is_block, parse_entry_block
    by (by apply not_found_fields_ok).
  unfold parsed, not_found_fields. cbn [fold_left fst snd].
  by rewrite accumulate_indented.
Qed.

Variable synsets_of : list ascii → list Synset.

(** X7.  For a query that is an ASCII text without line break and is not
    blank, and senses whose texts are ASCII texts without line break, the
    text of [define_word], parsed, agrees with the entry of
    [define_word_json] on the word, the part of speech, the pronunciation,
    the definition and the synonyms (texts trimmed, synonyms joined by
    commas), whether the word is found or not. *)
Theorem text_agrees_with_dict (word0 : str) :
  plain word0 → lower (strip word0) ≠ [] →
  Forall plain_sense (take 4 (synsets_of (lower (strip word0)))) →
  let e := define_word_json synsets_of word0 in
  let m := ImageBot.parse_entry (define_word synsets_of word0) in
  m !! lit "word" = Some (word e)
  ∧ m !! lit "part_of_speech" = Some (part_of_speech e)
  ∧ m !! lit "pronunciation" = Some (pronunciation e)
  ∧ m !! lit "definition" = Some (strip (entry_definition e))
  ∧ m !! lit "synonyms" = Some (strip (synonyms_text (synonyms e))).
Proof.
  intros [_ Hnb] Hne Hplain. cbv zeta.
  assert (Hall := Forall_plain_sense_single_line _ Hplain).
  assert (Hw : no_break (lower (strip word0)))
    by (by apply no_break_lower, no_break_strip).
  assert (Hstrip : strip (lower (strip word0)) = lower (strip word0))
    by (by rewrite <- lower_strip, strip_strip).
  unfold define_word, define_word_json.
  destruct (lower (strip word0)) as [|c w] eqn:Hword; [done|].
  cbn [negb nonempty].
  destruct (synsets_of (c :: w)) as [|primary rest] eqn:Hs.
  - rewrite parse_not_found_entry by done. cbn [word part_of_speech
      pronunciation entry_definition synonyms]. rewrite Hstrip.
    repeat split;
      (rewrite ?lookup_insert_ne by done; by rewrite lookup_insert_eq).
  - change (take 4 (primary :: rest)) with (primary :: take 3 rest) in Hall.
    rewrite parse_word_entry.
    + cbn [word part_of_speech pronunciation entry_definition synonyms].
      rewrite Hstrip, pos_readable_trimmed.
      repeat split;
        (rewrite ?lookup_insert_ne by done; by rewrite lookup_insert_eq).
    + done.
    + apply pos_readable_no_break.
    + by repeat constructor.
    + apply Forall_cons in Hall as [(? & _) _]. done.
    + by apply collect_examples_no_break.
    + by apply collect_all_synonyms_no_break.
Qed.

End text_and_dict.

Lemma text_agrees_with_dict_witness :
  (Spec.plain (lit " Dog ")
   ∧ lower (strip (lit " Dog ")) ≠ []
   ∧ Forall Spec.plain_sense
       (take 4 (Samples.wordnet (lower (strip (lit " Dog "))))))
  ∧ ImageBot.parse_entry (WordBot.define_word Samples.wordnet (lit " Dog "))
      !! lit "synonyms" = Some (lit "domestic dog, frump, blackguard").
Proof.
  assert (H1 : Spec.plain (lit " Dog "))
    by (apply (bool_decide_unpack _); by vm_compute).
  assert (H2 : lower (strip (lit " Dog ")) ≠ []) by discriminate.
  assert (H3 : Forall Spec.plain_sense
                 (take 4 (Samples.wordnet (lower (strip (lit " Dog "))))))
    by (apply (bool_decide_unpack _); by vm_compute).
  split; [exact (conj H1 (conj H2 H3))|].
  exact (proj2 (proj2 (proj2 (proj2
           (text_agrees_with_dict Samples.wordnet (lit " Dog ") H1 H2 H3))))).
Defined.

Section label_bounds.
Import ImageBot.

(** X9.  With no label list, an empty one, or a prediction index outside
    it, the label is "unknown object"; from confidence 0.15 on, the entry
    then carries the generic description and meaning built on that label,
    not the low-confidence messages. *)
Theorem index_out_of_range (labels : option (list (list ascii)))
    (conf : Q) (pred_idx : Z) :
  (∀ names, labels = Some names →
     (pred_idx < 0 ∨ Z.of_nat (length names) <= pred_idx)%Z) →
  pick_label labels pred_idx = lit "unknown object"
  ∧ ((15 # 100 <= conf)%Q →
     resolve_prediction _LABEL_INFO labels conf pred_idx
     = {| label := lit "unknown object";
          description := lit "An image likely depicting: unknown object.";
          meaning :=
            lit "'Unknown Object' is a concept or object recognized by the image classifier. Consult a reference for more context.";
          confidence := conf |}).
Proof.
  intros Hout.
  assert (Hpick : pick_label labels pred_idx = lit "unknown object").
  { unfold pick_label. destruct labels as [names|]; [|done].
    destruct (Hout names eq_refl) as [Hneg|Hbig].
    - rewrite (proj2 (Z.leb_gt 0 pred_idx)) by done.
      by rewrite andb_false_r.
    - rewrite (proj2 (Z.ltb_ge pred_idx _)) by done.
      by rewrite andb_false_r. }
  split; [exact Hpick|]. intros Hge.
  unfold resolve_prediction. rewrite Hpick.
  destruct (Qlt_le_dec conf threshold) as [Hlt|_]; [|reflexivity].
  exfalso. by apply (Qlt_not_le _ _ Hlt).
Qed.

Lemma index_out_of_range_witness :
  (∀ names, Some [lit "tabby"] = Some names →
     (5 < 0 ∨ Z.of_nat (length names) <= 5)%Z)
  ∧ pick_label (Some [lit "tabby"]) 5 = lit "unknown object".
Proof.
  assert (H : ∀ names, Some [lit "tabby"] = Some names →
                (5 < 0 ∨ Z.of_nat (length names) <= 5)%Z).
  { intros names [= <-]. right. discriminate. }
  split; [exact H | exact (proj1 (index_out_of_range _ (1 # 2) 5 H))].
Defined.

End label_bounds.

(** ** The dict form of a classified image *)

Section image_json.
Import ImageBot Spec.

Lemma label_info_clean k d m :
  _LABEL_INFO !! k = Some (d, m) →
  (no_break k ∧ strip k = k) ∧ (no_break d ∧ strip d = d)
  ∧ (no_break m ∧ strip m = m).
Proof.
  intros E. apply elem_of_list_to_map_2 in E.
  repeat (apply elem_of_cons in E as [E|E];
          [injection E as -> -> ->;
           repeat split; (reflexivity || by repeat constructor)|]).
  by apply elem_of_nil in E.
Qed.

Context {Image : Type} (W : World Image).

(** X10.  For a classified image with confidence below 0.15 the dict form
    holds the label "unknown object", the two fixed messages and the
    formatted confidence, and nothing else. *)
Theorem low_confidence_json path img conf pred_idx :
  isfile W path = true →
  lower (splitext W path).2 ∈ valid_extensions →
  open_image W path = inr img →
  classify W img = inr (conf, pred_idx) →
  (conf < 15 # 100)%Q →
  no_break (format_percent W conf) →
  describe_image_json W path
  = <[ lit "confidence" := strip (format_percent W conf) ]>
      (<[ lit "meaning" :=
            lit "Try uploading a clearer photo or a different angle." ]>
         (<[ lit "description" :=
               lit "The classifier could not identify this image with high confidence." ]>
            (<[ lit "label" := lit "unknown object" ]> ∅))).
Proof.
  intros Hf Hext Hopen Hcls Hlow Hpct. unfold describe_image_json.
  rewrite (describe_image_success W path img conf pred_idx) by done.
  cbv zeta. unfold resolve_prediction.
  destruct (Qlt_le_dec conf threshold) as [_|Hge].
  2:{ exfalso. by apply (Qlt_not_le _ _ Hlow). }
  cbn [label description meaning confidence].
  rewrite parse_image_entry; [done|by repeat constructor..|done].
Qed.

(** X11.  For a classified image with confidence from 0.15 on whose label
    is in the table, the dict form holds that label, the description and
    the meaning of the table, word for word, and the formatted
    confidence. *)
Theorem known_label_json path img conf pred_idx d m :
  isfile W path = true →
  lower (splitext W path).2 ∈ valid_extensions →
  open_image W path = inr img →
  classify W img = inr (conf, pred_idx) →
  (15 # 100 <= conf)%Q →
  _LABEL_INFO !! pick_label (labels_of_model W) pred_idx = Some (d, m) →
  no_break (format_percent W conf) →
  describe_image_json W path
  = <[ lit "confidence" := strip (format_percent W conf) ]>
      (<[ lit "meaning" := m ]>
         (<[ lit "description" := d ]>
            (<[ lit "label" := pick_label (labels_of_model W) pred_idx ]> ∅))).
Proof.
  intros Hf Hext Hopen Hcls Hhigh Hrow Hpct. unfold describe_image_json.
  rewrite (describe_image_success W path img conf pred_idx) by done.
  cbv zeta. unfold resolve_prediction.
  destruct (Qlt_le_dec conf threshold) as [Hlt|_].
  { exfalso. by apply (Qlt_not_le _ _ Hlt). }
  rewrite (get_label_info_present _ _ _ Hrow).
  cbn [label description meaning confidence].
  destruct (label_info_clean _ _ _ Hrow) as ((Hk & Hks) & (Hd & Hds) & (Hm & Hms)).
  rewrite parse_image_entry by done. by rewrite Hks, Hds, Hms.
Qed.

End image_json.

Lemma low_confidence_json_witness :
  ((1 # 10 < 15 # 100)%Q ∧ Spec.no_break (lit "10.00%"))
  ∧ ImageBot.describe_image_json
      (Samples.photo_booth (1 # 10) (lit "10.00%")) (lit "cat.jpg")
      !! lit "label" = Some (lit "unknown object").
Proof.
  assert (Hlow : (1 # 10 < 15 # 100)%Q) by reflexivity.
  assert (Hpct : Spec.no_break (lit "10.00%")) by (by repeat constructor).
  split; [by split|].
  rewrite (low_confidence_json (Samples.photo_booth (1 # 10) (lit "10.00%"))
             (lit "cat.jpg") tt (1 # 10) 0 eq_refl).
  - reflexivity.
  - exact jpg_is_valid.
  - reflexivity.
  - reflexivity.
  - exact Hlow.
  - exact Hpct.
Defined.

Lemma known_label_json_witness :
  ((15 # 100 <= 82 # 100)%Q ∧ Spec.no_break (lit "82.00%"))
  ∧ ImageBot.describe_image_json
      (Samples.photo_booth (82 # 100) (lit "82.00%")) (lit "cat.jpg")
      !! lit "confidence" = Some (lit "82.00%").
Proof.
  assert (Hhigh : (15 # 100 <= 82 # 100)%Q) by discriminate.
  assert (Hpct : Spec.no_break (lit "82.00%")) by (by repeat constructor).
  split; [by split|].
  pose proof (known_label_json (Samples.photo_booth (82 # 100) (lit "82.00%"))
                (lit "cat.jpg") tt (82 # 100) 0 _ _ eq_refl jpg_is_valid
                eq_refl eq_refl Hhigh eq_refl Hpct) as H.
  rewrite H. reflexivity.
Defined.

(** ** What the parser keeps *)

Section parser_invariants.
Import ImageBot Spec.

Lemma strip_nil : strip [] = [].
Proof. reflexivity. Qed.

(** A property of the dict and of the current key that every step keeps. *)
Lemma parse_fold_invariant
    (I : gmap (list ascii) (list ascii) → option (list ascii) → Prop)
    (lines : list (list ascii)) st :
  (∀ m k line, line ∈ lines → I m k →
     I (parse_step (m, k) line).1 (parse_step (m, k) line).2) →
  I st.1 st.2 →
  I (fold_left parse_step lines st).1 (fold_left parse_step lines st).2.
Proof.
  revert st. induction lines as [|line lines IH]; intros [m k] Hstep H0.
  - done.
  - cbn [fold_left]. apply IH.
    + intros m' k' l Hl. apply Hstep. by right.
    + destruct (parse_step (m, k) line) as [m1 k1] eqn:E.
      specialize (Hstep m k line (list_elem_of_here _ _) H0).
      by rewrite E in Hstep.
Qed.

(** X12.  Every key of the parsed dict is the name of a bracketed line of
    the text, its brackets stripped; a text without bracketed line gives
    the empty dict. *)
Theorem parse_entry_keys (text : str) :
  (∀ key, is_Some (parse_entry text !! key) →
     ∃ line, line ∈ splitlines text ∧ is_header line = true
             ∧ key = strip_chars (lit "[]") line)
  ∧ (Forall (λ line, is_header line = false) (splitlines text) →
     parse_entry text = ∅).
Proof.
  set (from_header (key : list ascii) :=
         ∃ line, line ∈ splitlines text ∧ is_header line = true
                 ∧ key = strip_chars (lit "[]") line).
  assert (Hinv :
    (∀ key, is_Some (parse_entry text !! key) → from_header key)
    ∧ (∀ key, (fold_left parse_step (splitlines text) (∅, None)).2 = Some key →
         from_header key)).
  { unfold parse_entry.
    apply (parse_fold_invariant
             (λ m k, (∀ key, is_Some (m !! key) → from_header key)
                     ∧ (∀ key, k = Some key → from_header key))).
    - intros m k line Hline [Hm Hk]. unfold parse_step.
      change (startswith line (lit "[") && endswith line (lit "]"))
        with (is_header line).
      destruct (is_header line) eqn:Hh; cbn [fst snd].
      + assert (Hnew : from_header (strip_chars (lit "[]") line))
          by (by exists line).
        split.
        * intros key. rewrite lookup_insert.
          case_decide as Heq; [by intros _; subst|apply Hm].
        * by intros key [= <-].
      + destruct k as [key0|]; [|done].
        destruct (WordBot.nonempty key0); [|done]. cbn [fst snd].
        split; [|done]. intros key. rewrite lookup_insert.
        case_decide as Heq; [intros _; subst; by apply Hk|apply Hm].
    - cbn [fst snd]. split; [|done].
      intros key. rewrite lookup_empty. by intros [? ?]. }
  split; [apply Hinv|].
  intros Hnone. apply map_empty. intros key.
  destruct (parse_entry text !! key) as [v|] eqn:E; [|done].
  destruct (proj1 Hinv key) as (line & Hin & Hh & _); [by rewrite E|].
  rewrite Forall_forall in Hnone. by rewrite (Hnone line Hin) in Hh.
Qed.

(** X13.  Every value of the parsed dict is trimmed: it has no whitespace
    at either end. *)
Theorem parse_entry_values_trimmed (text : str) (key value : str) :
  parse_entry text !! key = Some value → strip value = value.
Proof.
  revert key value. unfold parse_entry.
  apply (parse_fold_invariant
           (λ m _, ∀ key value, m !! key = Some value → strip value = value)).
  - intros m k line _ Hm. unfold parse_step.
    destruct (startswith line (lit "[") && endswith line (lit "]"));
      cbn [fst].
    + intros key value. rewrite lookup_insert.
      case_decide; [by intros [= <-] | apply Hm].
    + destruct k as [key0|]; [|done].
      destruct (WordBot.nonempty key0); [|done]. cbn [fst].
      intros key value. rewrite lookup_insert.
      case_decide; [intros [= <-]; apply strip_strip | apply Hm].
  - cbn [fst]. intros key value. by rewrite lookup_empty.
Qed.

End parser_invariants.

Lemma parse_entry_keys_witness :
  Forall (λ line, Spec.is_header line = false)
    (splitlines (lit "no field here"))
  ∧ ImageBot.parse_entry (lit "no field here") = ∅.
Proof.
  assert (H : Forall (λ line, Spec.is_header line = false)
                (splitlines (lit "no field here")))
    by (by repeat constructor).
  split; [exact H | exact (proj2 (parse_entry_keys _) H)].
Defined.

Lemma parse_entry_values_trimmed_witness :
  ImageBot.parse_entry (lit "[k]" ++ nl ++ lit "   padded value   ") !! lit "k"
  = Some (lit "padded value")
  ∧ strip (lit "padded value") = lit "padded value".
Proof.
  assert (H : ImageBot.parse_entry
                (lit "[k]" ++ nl ++ lit "   padded value   ") !! lit "k"
              = Some (lit "padded value")) by reflexivity.
  split; [exact H | exact (parse_entry_values_trimmed _ _ _ H)].
Defined.

(** ** The command loop *)

Section command_loop.
Import Safety Main Spec.

Lemma lstrip_head c s t : lstrip s = c :: t → is_space c = false.
Proof.
  induction s as [|d s IH]; simpl; [done|].
  destruct (is_space d) eqn:Hd; [done|]. by intros [= <- <-].
Qed.

Lemma take_token_visible s : Forall (λ c, is_space c = false) (take_token s).
Proof.
  induction s as [|c s IH]; simpl; [constructor|].
  destruct (is_space c) eqn:Hc; by constructor.
Qed.

Lemma take_drop_token s : take_token s ++ drop_token s = s.
Proof.
  induction s as [|c s IH]; simpl; [done|].
  destruct (is_space c); [done|]. simpl. by rewrite IH.
Qed.

(** X15.  When a line splits into a command and an argument, there is
    nothing else; the command is a token without whitespace; the argument
    begins with a visible character, so it is not blank and the gate reads
    it against the blocked terms. *)
Theorem split_command_argument (line cmd0 arg : str) (more : list (list ascii)) :
  split_maxsplit1 line = cmd0 :: arg :: more →
  more = []
  ∧ cmd0 ≠ [] ∧ Forall (λ c, is_space c = false) cmd0
  ∧ (∃ c rest, arg = c :: rest ∧ is_space c = false)
  ∧ ¬ blank arg
  ∧ is_safe_request arg = scan_keywords BLOCKED_KEYWORDS (lower arg).
Proof.
  unfold split_maxsplit1.
  destruct (lstrip line) as [|c s1] eqn:Hline; [done|].
  destruct (lstrip (drop_token (c :: s1))) as [|d rest] eqn:Hrest; [done|].
  cbn [WordBot.nonempty]. intros [= <- <- <-].
  assert (Hc : is_space c = false) by (by eapply lstrip_head).
  assert (Hd : is_space d = false) by (by eapply lstrip_head).
  assert (Hnb : ¬ blank (d :: rest)).
  { intros Hb. apply Forall_cons in Hb as [Hb _]. congruence. }
  split; [done|]. split; [simpl; by rewrite Hc|].
  split; [apply (take_token_visible (c :: s1))|].
  split; [by exists d, rest|]. split; [done|].
  by apply is_safe_request_inspects.
Qed.

Lemma keyword_line_is_one_token line kw :
  Forall (λ c, is_space c = false) kw → kw ≠ [] → lower line = kw →
  ∀ a b more, split_maxsplit1 line ≠ a :: b :: more.
Proof.
  intros Hkw Hne Hlow a b more Hsplit.
  assert (Hvis : Forall (λ c, is_space c = false) line).
  { rewrite <- Hlow in Hkw. unfold lower in Hkw. rewrite Forall_map in Hkw.
    eapply Forall_impl; [exact Hkw|]. intros c. simpl.
    by rewrite to_lower_is_space. }
  unfold split_maxsplit1 in Hsplit.
  assert (Hl : lstrip line = line).
  { destruct Hvis as [|c0 l0 Hc _]; [done|]. simpl. by rewrite Hc. }
  rewrite Hl in Hsplit. destruct line as [|c l]; [done|].
  assert (Hdrop : drop_token (c :: l) = []).
  { clear -Hvis. induction Hvis as [|x l0 Hx _ IH]; simpl; [done|].
    by rewrite Hx. }
  by rewrite Hdrop in Hsplit.
Qed.

Context {Image : Type} (synsets_of : list ascii → list WordBot.Synset)
  (W : ImageBot.World Image).

(** X14.  The gate comes before the dispatch: when the argument of a line
    is rejected, the refusal message is all that is printed, whatever the
    command, known or not, and the loop goes on. *)
Theorem gate_before_dispatch (raw cmd0 arg : str) :
  split_maxsplit1 (strip raw) = [cmd0; arg] →
  is_safe_request arg = false →
  loop_body synsets_of W raw
  = (true,
     [lit "Sorry, I can't help with that request. Please enter a valid English word or image path."]).
Proof.
  intros Hsplit Hunsafe. unfold loop_body.
  destruct (strip raw) as [|c line] eqn:Hline; [done|].
  cbn [negb WordBot.nonempty].
  rewrite bool_decide_eq_false_2.
  2:{ intros Hexit.
      eapply (keyword_line_is_one_token (c :: line) (lit "exit"));
        [by repeat constructor | done | exact Hexit | exact Hsplit]. }
  rewrite bool_decide_eq_false_2.
  2:{ intros Hhelp.
      eapply (keyword_line_is_one_token (c :: line) (lit "help"));
        [by repeat constructor | done | exact Hhelp | exact Hsplit]. }
  rewrite Hsplit, Hunsafe. reflexivity.
Qed.

(** X16.  For a line of ASCII characters: the line that reads exit, in
    any letter case and with any padding, prints "Bye!" and ends the loop;
    no other line ends it. *)
Theorem exit_ends_the_loop (raw : str) :
  ascii_text raw →
  (lower (strip raw) = lit "exit" →
   loop_body synsets_of W raw = (false, [lit "Bye!"]))
  ∧ (fst (loop_body synsets_of W raw) = false →
     lower (strip raw) = lit "exit"
     ∧ loop_body synsets_of W raw = (false, [lit "Bye!"])).
Proof.
  intros _.
  assert (Hexit : lower (strip raw) = lit "exit" →
                  loop_body synsets_of W raw = (false, [lit "Bye!"])).
  { intros Hexit. unfold loop_body.
    destruct (strip raw) as [|c line]; [done|]. cbn [negb WordBot.nonempty].
    by rewrite bool_decide_eq_true_2. }
  split; [exact Hexit|].
  intros Hstop.
  assert (Hline : lower (strip raw) = lit "exit"); [|by split; [|apply Hexit]].
  revert Hstop. unfold loop_body.
  destruct (negb _); [done|].
  case_bool_decide; [done|].
  case_bool_decide; [done|].
  destruct (split_maxsplit1 (strip raw)) as [|cmd0 [|arg more]]; [done..|].
  destruct (negb _); [done|].
  repeat case_bool_decide; done.
Qed.

End command_loop.

Lemma split_command_argument_witness :
  Main.split_maxsplit1 (lit "define   ice cream") = [lit "define"; lit "ice cream"]
  ∧ ¬ Spec.blank (lit "ice cream").
Proof.
  assert (H : Main.split_maxsplit1 (lit "define   ice cream")
              = [lit "define"; lit "ice cream"]) by reflexivity.
  split; [exact H|].
  exact (proj1 (proj2 (proj2 (proj2 (proj2
           (split_command_argument _ _ _ _ H)))))).
Defined.

Lemma gate_before_dispatch_witness :
  (Main.split_maxsplit1 (strip (lit "  Dance with a BOMB  "))
   = [lit "Dance"; lit "with a BOMB"]
   ∧ Safety.is_safe_request (lit "with a BOMB") = false)
  ∧ fst (Main.loop_body Samples.wordnet Samples.empty_disk
           (lit "  Dance with a BOMB  ")) = true.
Proof.
  assert (H1 : Main.split_maxsplit1 (strip (lit "  Dance with a BOMB  "))
               = [lit "Dance"; lit "with a BOMB"]) by reflexivity.
  assert (H2 : Safety.is_safe_request (lit "with a BOMB") = false)
    by reflexivity.
  split; [by split|].
  by rewrite (gate_before_dispatch Samples.wordnet Samples.empty_disk _ _ _ H1 H2).
Defined.

Lemma exit_ends_the_loop_witness :
  (Spec.ascii_text (lit " EXIT ") ∧ lower (strip (lit " EXIT ")) = lit "exit")
  ∧ Main.loop_body Samples.wordnet Samples.empty_disk (lit " EXIT ")
    = (false, [lit "Bye!"]).
Proof.
  assert (Ha : Spec.ascii_text (lit " EXIT "))
    by (apply (bool_decide_unpack _); by vm_compute).
  assert (H : lower (strip (lit " EXIT ")) = lit "exit") by reflexivity.
  split; [by split|].
  exact (proj1 (exit_ends_the_loop Samples.wordnet Samples.empty_disk
                  (lit " EXIT ") Ha) H).
Defined.

(** ** The online clients *)

Section online_clients.
Import AiClients Spec.
Context {Json : Type} (E : Env Json).

Lemma truthy_spec (s : option (list ascii)) :
  truthy s = true ↔ ∃ text, s = Some text ∧ text ≠ [].
Proof.
  destruct s as [[|c text]|]; simpl; split; try done.
  - by intros (text & [= <-] & ?).
  - intros _. by eexists.
  - by intros (text & ? & _).
Qed.

Lemma is_online_mode_spec :
  is_online_mode E = true
  ↔ (∃ flag, getenv E (lit "USE_ONLINE_AI") = Some flag
             ∧ lower flag = lit "true")
    ∧ (∃ key, API_KEY E = Some key ∧ key ≠ [])
    ∧ (∃ endpoint, API_ENDPOINT E = Some endpoint ∧ endpoint ≠ []).
Proof.
  unfold is_online_mode. rewrite !andb_true_iff, !truthy_spec.
  unfold USE_ONLINE_AI. rewrite bool_decide_eq_true.
  split.
  - intros [[Hflag Hkey] Hend]. split; [|by split].
    destruct (getenv E (lit "USE_ONLINE_AI")) as [flag|]; [by exists flag|].
    discriminate Hflag.
  - intros (Hflag & Hkey & Hend). split; [split|]; [|done|done].
    by destruct Hflag as (flag & -> & ?).
Qed.

(** X17.  Without the online mode, that is unless USE_ONLINE_AI reads
    "true" in any letter case and both the key and the endpoint are set and
    not empty, each client returns [None] and sends no request. *)
Theorem offline_sends_nothing (word image_path : str) :
  (is_online_mode E = true
   ↔ (∃ flag, getenv E (lit "USE_ONLINE_AI") = Some flag
              ∧ lower flag = lit "true")
     ∧ (∃ key, getenv E (lit "AZURE_OPENAI_API_KEY") = Some key ∧ key ≠ [])
     ∧ (∃ endpoint,
          getenv E (lit "AZURE_OPENAI_ENDPOINT") = Some endpoint
          ∧ endpoint ≠ []))
  ∧ (is_online_mode E = false →
     define_word_online E word = (None, [])
     ∧ describe_image_online E image_path = (None, [])).
Proof.
  split; [apply is_online_mode_spec|].
  intros Hoff. unfold define_word_online, describe_image_online.
  by rewrite Hoff.
Qed.

Lemma chat_request_configured system_prompt content seconds :
  is_online_mode E = true → system_prompt ≠ [] →
  configured_request E seconds (chat_request E system_prompt content seconds).
Proof.
  intros Hon Hprompt.
  apply is_online_mode_spec in Hon as (_ & (key & Hkey & Hk) & (e & He & Hne)).
  exists key, e. unfold chat_request, chat_url. cbn.
  rewrite Hkey, He. cbn [default].
  by repeat split.
Qed.

Lemma send_result request result sent :
  send E request = (result, sent) →
  sent = [request]
  ∧ (result = None ∨ ∃ content, post E request = Some content
                                ∧ json_loads E content = result).
Proof.
  unfold send. intros [= <- <-]. split; [done|].
  destruct (post E request) as [content|]; [|by left].
  right. by exists content.
Qed.

(** X18.  A call sends one request at most, never a second one; a request
    goes to the chat URL of the configured endpoint and model with the
    configured key, a prompt that is not empty, and a timeout of 10 seconds
    for a word, 15 for an image; and a result other than [None] is the
    decoded content of the response to that one request. *)
Theorem one_configured_request (word image_path : str) :
  (∀ result sent, define_word_online E word = (result, sent) →
     length sent ≤ 1
     ∧ (∀ q, q ∈ sent →
          configured_request E 10 q ∧ user_content q = UserText word)
     ∧ (is_Some result →
          ∃ q content, sent = [q] ∧ post E q = Some content
                       ∧ json_loads E content = result))
  ∧ (∀ result sent, describe_image_online E image_path = (result, sent) →
       length sent ≤ 1
       ∧ (∀ q, q ∈ sent →
            configured_request E 15 q
            ∧ ∃ b64, read_base64 E image_path = Some b64
                     ∧ user_content q =
                         UserImage (lit "data:image/jpeg;base64," ++ b64)
                           (lit "Describe this image."))
       ∧ (is_Some result →
            ∃ q content, sent = [q] ∧ post E q = Some content
                         ∧ json_loads E content = result)).
Proof.
  assert (Hnone : ∀ (P : Request → Prop) result (sent : list Request),
            (None : option Json, @nil Request) = (result, sent) →
            length sent ≤ 1 ∧ (∀ q, q ∈ sent → P q)
            ∧ (is_Some result →
                 ∃ q content, sent = [q] ∧ post E q = Some content
                              ∧ json_loads E content = result)).
  { intros P result sent [= <- <-]. split; [simpl; lia|].
    split; [by intros q ?%elem_of_nil | by intros [? ?]]. }
  assert (Hsent : ∀ (P : Request → Prop) request result sent,
            P request → send E request = (result, sent) →
            length sent ≤ 1 ∧ (∀ q, q ∈ sent → P q)
            ∧ (is_Some result →
                 ∃ q content, sent = [q] ∧ post E q = Some content
                              ∧ json_loads E content = result)).
  { intros P request result sent HP Hsend.
    apply send_result in Hsend as [-> Hres]. split; [done|]. split.
    - by intros q ->%list_elem_of_singleton.
    - intros Hsome. destruct Hres as [->|(content & Hpost & Hjson)].
      + by destruct Hsome.
      + by exists request, content. }
  split; intros result sent.
  - unfold define_word_online.
    destruct (is_online_mode E) eqn:Hon; cbn [negb]; [|apply Hnone].
    destruct (_load_prompt E (lit "word_prompts.txt")) as [|c prompt] eqn:Hp;
      cbn [negb WordBot.nonempty]; [apply Hnone|].
    destruct (requests_importable E); cbn [negb]; [|apply Hnone].
    apply Hsent. split; [by apply chat_request_configured | done].
  - unfold describe_image_online.
    destruct (is_online_mode E) eqn:Hon; cbn [negb]; [|apply Hnone].
    destruct (_load_prompt E (lit "image_prompts.txt")) as [|c prompt] eqn:Hp;
      cbn [negb WordBot.nonempty]; [apply Hnone|].
    destruct (requests_importable E); cbn [negb]; [|apply Hnone].
    destruct (read_base64 E image_path) as [b64|] eqn:Hb64; [|apply Hnone].
    apply Hsent. split; [by apply chat_request_configured|].
    by exists b64.
Qed.

(** X19.  With a prompt file that is missing, empty or made of whitespace,
    a client returns [None] and sends nothing, online mode or not; so does
    the image client when the image cannot be read. *)
Theorem no_prompt_no_request (word image_path : str) :
  ((∀ text, read_prompt E (lit "word_prompts.txt") = Some text → blank text) →
   define_word_online E word = (None, []))
  ∧ ((∀ text, read_prompt E (lit "image_prompts.txt") = Some text →
        blank text) →
     describe_image_online E image_path = (None, []))
  ∧ (read_base64 E image_path = None →
     describe_image_online E image_path = (None, [])).
Proof.
  assert (Hprompt : ∀ filename,
            (∀ text, read_prompt E filename = Some text → blank text) →
            _load_prompt E filename = []).
  { intros filename Hblank. unfold _load_prompt.
    destruct (read_prompt E filename) as [text|]; [|done].
    by apply strip_blank, Hblank. }
  split; [|split].
  - intros Hblank. unfold define_word_online.
    rewrite (Hprompt _ Hblank). by destruct (negb _).
  - intros Hblank. unfold describe_image_online.
    rewrite (Hprompt _ Hblank). by destruct (negb _).
  - intros Hfile. unfold describe_image_online. rewrite Hfile.
    destruct (negb _); [done|]. destruct (negb _); [done|].
    by destruct (negb _).
Qed.

End online_clients.

Lemma offline_sends_nothing_witness :
  AiClients.is_online_mode Samples.azure_without_key = false
  ∧ AiClients.define_word_online Samples.azure_without_key (lit "dog")
    = (None, []).
Proof.
  assert (H : AiClients.is_online_mode Samples.azure_without_key = false)
    by reflexivity.
  split; [exact H|].
  exact (proj1 (proj2 (offline_sends_nothing Samples.azure_without_key
                         (lit "dog") (lit "cat.jpg")) H)).
Defined.

Lemma one_configured_request_witness :
  AiClients.define_word_online Samples.azure (lit "dog")
  = (Some tt,
     [AiClients.chat_request Samples.azure (lit "You are a dictionary.")
        (AiClients.UserText (lit "dog")) 10])
  ∧ AiClients.url
      (AiClients.chat_request Samples.azure (lit "You are a dictionary.")
         (AiClients.UserText (lit "dog")) 10)
    = lit "https://example.openai.azure.com/openai/deployments/gpt-4o-mini/chat/completions?api-version=2024-02-01"
  ∧ Spec.configured_request Samples.azure 10
      (AiClients.chat_request Samples.azure (lit "You are a dictionary.")
         (AiClients.UserText (lit "dog")) 10).
Proof.
  assert (H : AiClients.define_word_online Samples.azure (lit "dog")
              = (Some tt,
                 [AiClients.chat_request Samples.azure
                    (lit "You are a dictionary.")
                    (AiClients.UserText (lit "dog")) 10])) by reflexivity.
  split; [exact H|]. split; [reflexivity|].
  destruct (one_configured_request Samples.azure (lit "dog") (lit "cat.jpg"))
    as [Hword _].
  destruct (Hword _ _ H) as (_ & Hq & _).
  exact (proj1 (Hq _ (list_elem_of_here _ _))).
Defined.

Lemma no_prompt_no_request_witness :
  AiClients.read_base64 Samples.azure_unreadable (lit "cat.jpg") = None
  ∧ AiClients.describe_image_online Samples.azure_unreadable (lit "cat.jpg")
    = (None, []).
Proof.
  assert (H : AiClients.read_base64 Samples.azure_unreadable (lit "cat.jpg")
              = None) by reflexivity.
  split; [exact H|].
  exact (proj2 (proj2 (no_prompt_no_request Samples.azure_unreadable
                         (lit "dog") (lit "cat.jpg"))) H).
Defined.
